(** * The IndexedDB adapter of kinto.js ([src/adapters/IDB.js])

    A shallow embedding of the adapter: the cursor handlers, the index
    selection of [list], the transaction executor and the metadata
    bookkeeping, over an explicit model of the IndexedDB object stores the
    code drives.

    Promises are read as their settled outcome.  A store is the list of its
    records; an index presents them to a cursor in ascending key order. *)

From Stdlib Require Import ZArith Lia Ascii String DecimalString DecimalPos DecimalZ.
From stdpp Require Import base option list sorting strings gmap.

Local Open Scope Z_scope.

(** ** JavaScript values *)

Module JS.

(** Numbers.  [Int z] stands for the double nearest to the integer [z];
    fractions are not represented.  Printing and comparing [Int z] through
    [z] is exact for the safe integers (magnitude below 2^53) and for the
    integers of at most 15 significant digits, where decimal notation and
    doubles agree. *)
Inductive number : Type :=
| Int (z : Z)
| NaN
| PosInf
| NegInf.

Inductive value : Type :=
| Undefined
| Null
| Num (n : number)
| Str (s : string).

(** The decimal notation of an integer: its sign, if it is negative, and
    its digits. *)
Definition decimal (z : Z) : string := NilZero.string_of_int (Z.to_int z).

Fixpoint strip_trailing_zeros (s : string) : string :=
  match s with
  | EmptyString => EmptyString
  | String c s' =>
      match strip_trailing_zeros s' with
      | EmptyString => if Ascii.eqb c "0" then EmptyString else String c EmptyString
      | r => String c r
      end
  end.

(** Exponent notation: the first significant digit, the others after a
    point if there are any, and the exponent. *)
Definition exponential (z : Z) : string :=
  let digits := decimal (Z.abs z) in
  let mantissa :=
    match strip_trailing_zeros digits with
    | String c EmptyString => String c EmptyString
    | String c r => String c ("." +:+ r)
    | EmptyString => EmptyString
    end in
  (if z <? 0 then "-" else "") +:+ mantissa +:+ "e+"
    +:+ decimal (Z.of_nat (String.length digits) - 1).

(** Number::toString: plain decimal notation below 10^21, exponent
    notation from there on ([String(1e21)] is ["1e+21"]).  The digits
    are those of [z], which are the digits of the double for the
    integers [Int] is exact on. *)
Definition number_to_string (n : number) : string :=
  match n with
  | Int z =>
      if Z.abs z <? 1000000000000000000000 then decimal z else exponential z
  | NaN => "NaN"
  | PosInf => "Infinity"
  | NegInf => "-Infinity"
  end.

(** ToString. *)
Definition to_string (v : value) : string :=
  match v with
  | Undefined => "undefined"
  | Null => "null"
  | Num n => number_to_string n
  | Str s => s
  end.

(** ToBoolean. *)
Definition truthy (v : value) : bool :=
  match v with
  | Undefined | Null => false
  | Num (Int z) => negb (z =? 0)
  | Num NaN => false
  | Num _ => true
  | Str s => negb (String.eqb s "")
  end.

(** ToNumber on the values the metadata store holds (no strings). *)
Definition null_or_number_to_number (v : option number) : number :=
  match v with
  | None => Int 0
  | Some n => n
  end.

(** [a > b] on numbers: false as soon as one side is NaN. *)
Definition number_gt (a b : number) : bool :=
  match a, b with
  | NaN, _ | _, NaN => false
  | Int x, Int y => y <? x
  | PosInf, PosInf => false
  | PosInf, _ => true
  | _, PosInf => false
  | NegInf, _ => false
  | Int _, NegInf => true
  end.

(** Math.max of two already converted arguments, and of a spread list:
    -Infinity for no argument, NaN as soon as one argument is NaN. *)
Definition max2 (a b : number) : number :=
  match a, b with
  | NaN, _ | _, NaN => NaN
  | _, _ => if number_gt b a then b else a
  end.

Definition math_max (args : list number) : number :=
  foldl max2 NegInf args.

(** The white space parseInt strips, among the code units below 256. *)
Definition is_white_space (c : ascii) : bool :=
  let n := nat_of_ascii c in
  ((9 <=? n) && (n <=? 13) || (n =? 32) || (n =? 160))%nat.

Definition digit_of (c : ascii) : option Z :=
  let n := Z.of_nat (nat_of_ascii c) in
  if (48 <=? n) && (n <=? 57) then Some (n - 48) else None.

Fixpoint strip_white_space (s : string) : string :=
  match s with
  | String c s' => if is_white_space c then strip_white_space s' else s
  | EmptyString => s
  end.

(** The longest digit prefix of [s], read in base 10 onto [acc];
    [seen] records whether a digit was consumed. *)
Fixpoint read_digits (s : string) (seen : bool) (acc : Z) : option Z :=
  match s with
  | String c s' =>
      match digit_of c with
      | Some d => read_digits s' true (10 * acc + d)
      | None => if seen then Some acc else None
      end
  | EmptyString => if seen then Some acc else None
  end.

(** The integer that the longest prefix of [s] spells: white space, a
    sign, decimal digits. *)
Definition read_integer (s : string) : option Z :=
  let s1 := strip_white_space s in
  let '(sign, s2) :=
    match s1 with
    | String "-" r => (-1, r)
    | String "+" r => (1, r)
    | _ => (1, s1)
    end in
  match read_digits s2 false 0 with
  | Some n => Some (sign * n)
  | None => None
  end.

(** The double nearest to an integer, ties to the even significand: the
    integers below 2^53 are doubles, and above them a double keeps the 53
    leading bits.  Integers beyond the largest double (digit strings of
    more than 308 digits, which parse to Infinity) are not told apart
    from the others. *)
Definition to_double (z : Z) : Z :=
  let a := Z.abs z in
  if a <? 9007199254740992 then z
  else
    let e := Z.log2 a - 52 in
    let q := a / 2 ^ e in
    let r := a mod 2 ^ e in
    let half := 2 ^ (e - 1) in
    let q' :=
      if r <? half then q
      else if half <? r then q + 1
      else if Z.even q then q else q + 1 in
    Z.sgn z * (q' * 2 ^ e).

(** parseInt(s, 10): the Number value of the integer read. *)
Definition parse_int_string (s : string) : number :=
  match read_integer s with
  | Some n => Int (to_double n)
  | None => NaN
  end.

Definition parseInt (v : value) : number := parse_int_string (to_string v).

(** The names of the properties of [Object.prototype], which every
    object made by [{}] inherits: those of ECMAScript, with its annex on
    browsers. *)
Definition object_prototype : list string :=
  ["constructor"; "hasOwnProperty"; "isPrototypeOf"; "propertyIsEnumerable";
   "toLocaleString"; "toString"; "valueOf"; "__proto__";
   "__defineGetter__"; "__defineSetter__"; "__lookupGetter__";
   "__lookupSetter__"]%string.

(** Errors: the name and message of an Error or DOMException object. *)
Record error : Type := Error { name : string; message : string }.

(** new Error(msg) *)
Definition new_Error (msg : string) : error := Error "Error" msg.

(** Error.prototype.toString *)
Definition error_to_string (e : error) : string :=
  if String.eqb (name e) "" then message e
  else if String.eqb (message e) "" then name e
  else name e +:+ ": " +:+ message e.

(** What a promise is rejected with, or a callback throws. *)
Inductive thrown : Type :=
| ThrownError (e : error)
| ThrownValue (v : value).

(** The settled state of a promise; [Pending] is a promise that never
    settles. *)
Inductive outcome (A : Type) : Type :=
| Resolved (a : A)
| Rejected (t : thrown)
| Pending.
Arguments Resolved {A} a.
Arguments Rejected {A} t.
Arguments Pending {A}.

End JS.

(** ** Keys

    The adapter never inspects a key: it compares it ([>], [===]), sorts a
    list of them with [Array.prototype.sort] and uses it as a property
    name.  IndexedDB orders the entries of an index by its own key order.
    The keys of one index are taken to be of one primitive type; the two
    instances are strings and integer numbers. *)

Class Key (K : Type) : Type := {
  key_gt : K -> K -> bool;        (* a > b *)
  key_strict_eq : K -> K -> bool; (* a === b *)
  key_to_string : K -> string;    (* ToString(a) *)
  key_lt : K -> K -> bool         (* a before b in an index *)
}.

(** What both instances satisfy. *)
Class KeyLaws (K : Type) `{Key K} : Prop := {
  key_strict_eq_spec : forall a b : K, key_strict_eq a b = true <-> a = b;
  key_gt_lt : forall a b : K, key_gt a b = key_lt b a;
  key_lt_irrefl : forall a : K, key_lt a a = false;
  key_lt_trans : forall a b c : K,
    key_lt a b = true -> key_lt b c = true -> key_lt a c = true;
  key_lt_connex : forall a b : K,
    key_lt a b = false -> key_lt b a = false -> a = b;
  key_to_string_inj : forall a b : K, key_to_string a = key_to_string b -> a = b
}.

(** The order of the printed keys is the order of the keys: true of
    strings, false of numbers. *)
Class SortAgrees (K : Type) `{Key K} : Prop :=
  sort_agrees : forall a b : K,
    String.ltb (key_to_string a) (key_to_string b) = key_lt a b.

#[export] Instance string_key : Key string := {
  key_gt a b := String.ltb b a;
  key_strict_eq := String.eqb;
  key_to_string a := a;
  key_lt := String.ltb
}.

#[export] Instance number_key : Key Z := {
  key_gt a b := b <? a;
  key_strict_eq := Z.eqb;
  key_to_string a := JS.number_to_string (JS.Int a);
  key_lt := Z.ltb
}.

Section ArraySort.
Context {K : Type} `{Key K}.

(** SortCompare with no comparefn: by the printed elements. *)
Definition sort_before (x y : K) : bool :=
  String.leb (key_to_string x) (key_to_string y).

Fixpoint sort_insert (x : K) (l : list K) : list K :=
  match l with
  | [] => [x]
  | y :: l' => if sort_before x y then x :: l else y :: sort_insert x l'
  end.

(** [values.sort()] on a copy of the array. *)
Definition array_sort (l : list K) : list K := foldr sort_insert [] l.
End ArraySort.

(** ** Records, object stores and cursors *)

(** A record: the three fields the adapter indexes, and the others. *)
Record record (K : Type) : Type := Record_ {
  id : K;
  _status : option string;
  last_modified : option Z;
  fields : list (string * JS.value)
}.
Arguments Record_ {K} _ _ _ _.
Arguments id {K} _.
Arguments _status {K} _.
Arguments last_modified {K} _.
Arguments fields {K} _.

(** What a cursor's success handler does with an event: it calls [done],
    or asks the cursor to continue, to the next entry or to a key. *)
Inductive handled (A R : Type) : Type :=
| Done (results : list R)
| Continue (results : list R) (target : option A).
Arguments Done {A R} _.
Arguments Continue {A R} _ _.

Section Cursors.
Context {A : Type} `{Key A} {R : Type}.

(** Stable insertion sort by a strict order, the order an index keeps. *)
Fixpoint insert_by {B : Type} (lt : B -> B -> bool) (x : B) (l : list B) : list B :=
  match l with
  | [] => [x]
  | y :: l' => if lt y x then y :: insert_by lt x l' else x :: l
  end.

Definition sort_by {B : Type} (lt : B -> B -> bool) (l : list B) : list B :=
  foldr (insert_by lt) [] l.

(** A handler takes the event's cursor ([None] once the cursor is
    exhausted, else its key and value) and the results pushed so far. *)
Definition handler : Type := option (A * R) -> list R -> handled A R.

(** The engine side of a cursor request: it fires a success event on the
    first entry, and after each [continue] on the next entry, or on the
    next entry whose key is not below the key asked for, or with a null
    cursor when there is none.  [continue(key)] throws a DataError unless
    [key] is above the cursor's position, and the request ends there:
    [None]. *)
Fixpoint run_cursor (h : handler) (entries : list (A * R))
    (target : option A) (results : list R) : option (list R) :=
  match entries with
  | [] =>
      match h None results with
      | Done rs => Some rs
      | Continue _ _ => None
      end
  | (k, v) :: rest =>
      if match target with Some t => key_lt k t | None => false end
      then run_cursor h rest target results
      else
        match h (Some (k, v)) results with
        | Done rs => Some rs
        | Continue rs None => run_cursor h rest None rs
        | Continue rs (Some t) =>
            if key_lt k t then run_cursor h rest (Some t) rs else None
        end
  end.

(** [cursorHandlers.all] *)
Definition cursorHandlers_all : handler :=
  fun cursor results =>
    match cursor with
    | Some (_, value) => Continue (results ++ [value]) None
    | None => Done results
    end.

(** The [while] loop of [cursorHandlers.in], on the values from index [i]
    on.  [None]: the loop ran off the array and called [done].
    [Some t]: it stopped with [t = sortedValues[i]], which is undefined
    ([None]) only for an empty array, where [key > undefined] is false. *)
Fixpoint skip_passed (key : A) (values : list A) : option (option A) :=
  match values with
  | [] => Some None
  | v :: values' =>
      if key_gt key v
      then match values' with
           | [] => None
           | _ :: _ => skip_passed key values'
           end
      else Some (Some v)
  end.

(** [cursorHandlers.in]; [continue(undefined)] is [continue()]. *)
Definition cursorHandlers_in (values : list A) : handler :=
  let sortedValues := array_sort values in
  fun cursor results =>
    match cursor with
    | None => Done results
    | Some (key, value) =>
        match skip_passed key sortedValues with
        | None => Done results
        | Some None => Continue results None
        | Some (Some v) =>
            if key_strict_eq key v
            then Continue (results ++ [value]) None
            else Continue results (Some v)
        end
    end.

(** [IDBKeyRange.only(value)] *)
Definition only (value : A) (entries : list (A * R)) : list (A * R) :=
  List.filter (fun e => negb (key_lt e.1 value) && negb (key_lt value e.1)) entries.

End Cursors.

(** ** The engine: object stores, indexes, transactions *)

Section Engine.
Context {K : Type} `{Key K}.

(** Two keys IndexedDB holds equal. *)
Definition same_key (a b : K) : bool :=
  negb (key_lt a b) && negb (key_lt b a).

(** The records of a store as a cursor over the store visits them. *)
Definition primary_order (store : list (record K)) : list (record K) :=
  sort_by (fun a b => key_lt (id a) (id b)) store.

(** The entries of the index on a key path, in cursor order: by key, and
    by primary key among equal keys.  A record without the field has no
    entry. *)
Definition index_entries {A : Type} `{Key A} (path : record K -> option A)
    (store : list (record K)) : list (A * record K) :=
  sort_by (fun a b => key_lt a.1 b.1)
    (omap (fun r => (fun k => (k, r)) <$> path r) (primary_order store)).

Definition store_get (key : K) (store : list (record K)) : option (record K) :=
  List.find (fun r => same_key (id r) key) store.

Definition store_delete (key : K) (store : list (record K)) : list (record K) :=
  List.filter (fun r => negb (same_key (id r) key)) store.

Definition store_put (r : record K) (store : list (record K)) : list (record K) :=
  store_delete (id r) store ++ [r].

(** [add] fails (ConstraintError) on a key already in the store. *)
Definition store_add (r : record K) (store : list (record K))
  : option (list (record K)) :=
  match store_get (id r) store with
  | Some _ => None
  | None => Some (store ++ [r])
  end.

(** The requests a batch queues on the collection store. *)
Inductive request : Type :=
| Add (r : record K)
| Put (r : record K)
| Delete (key : K).

Definition run_request (q : request) (store : list (record K))
  : option (list (record K)) :=
  match q with
  | Add r => store_add r store
  | Put r => Some (store_put r store)
  | Delete key => Some (store_delete key store)
  end.

(** The queued requests in order; [None] as soon as one fails. *)
Fixpoint run_requests (qs : list request) (store : list (record K))
  : option (list (record K)) :=
  match qs with
  | [] => Some store
  | q :: qs' =>
      match run_request q store with
      | Some store' => run_requests qs' store'
      | None => None
      end
  end.

(** How the engine fails a transaction.  [Failing e]: a request of the
    transaction fails with [e]; the error event reaches the transaction,
    which is then aborted.  [Aborting]: the engine aborts the transaction
    though no request failed (a commit that cannot be written): the abort
    event fires alone, with no error event before it. *)
Inductive fault : Type :=
| Failing (e : JS.error)
| Aborting.

(** The adapter and the database behind it.  [_db] tells whether the
    connection is cached.  [metadata] is the [__meta__] store, from entry
    name to entry value (a number or null).  [open_error] is the error the
    engine answers an [indexedDB.open] with, if any; [faults] holds, for
    each coming transaction in turn, how the engine fails it, if it
    does. *)
Record adapter : Type := Adapter {
  _db : bool;
  collection : list (record K);
  metadata : gmap string (option JS.number);
  open_error : option JS.error;
  faults : list (option fault)
}.

Definition constraint_error : JS.error :=
  JS.Error "ConstraintError" "Key already exists in the object store.".

End Engine.
Arguments request : clear implicits.
Arguments adapter : clear implicits.

(** ** The adapter *)

(** What reading a property of the object of preloaded records evaluates
    to: undefined, a record, the id or another field of a record, or the
    property of that name of [Object.prototype] (a function, but for
    [__proto__]). *)
Inductive property (K : Type) : Type :=
| NoProperty
| ARecord (r : record K)
| AKey (k : K)
| AValue (v : JS.value)
| Builtin (name : string).
Arguments NoProperty {K}.
Arguments ARecord {K} _.
Arguments AKey {K} _.
Arguments AValue {K} _.
Arguments Builtin {K} _.

(** The callback given to [execute], as the calls it makes on the proxy:
    it ends by returning or throwing, and what it does after a [get] may
    depend on what the [get] returned. *)
Inductive returned : Type :=
| Value (v : JS.value)
| APromise.

Inductive batch (K : Type) : Type :=
| Return (v : returned)
| Throw (t : JS.thrown)
| Create (r : record K) (next : batch K)
| Update (r : record K) (next : batch K)
| Remove (key : K) (next : batch K)
| Get (key : K) (next : property K -> batch K).
Arguments Return {K} _.
Arguments Throw {K} _.
Arguments Create {K} _ _.
Arguments Update {K} _ _.
Arguments Remove {K} _ _.
Arguments Get {K} _ _.

(** A filter value: a scalar, or an array of scalars. *)
Inductive filter_value (A : Type) : Type :=
| One (a : A)
| Many (l : list A).
Arguments One {A} _.
Arguments Many {A} _.

(** One field of a filters object.  The values filtered on [id],
    [_status] and [last_modified] are keys of the index on that field;
    [OnOther name v] is a filter on a field that has no index. *)
Inductive criterion (K : Type) : Type :=
| OnId (v : filter_value K)
| OnStatus (v : filter_value string)
| OnLastModified (v : filter_value Z)
| OnOther (name : string) (v : JS.value).
Arguments OnId {K} _.
Arguments OnStatus {K} _.
Arguments OnLastModified {K} _.
Arguments OnOther {K} _ _.

Definition field_of {K : Type} (c : criterion K) : string :=
  match c with
  | OnId _ => "id"
  | OnStatus _ => "_status"
  | OnLastModified _ => "last_modified"
  | OnOther name _ => name
  end.

(** How a callback ended. *)
Inductive ending : Type :=
| Returned (v : returned)
| Threw (t : JS.thrown).

Module IDB.
Section WithKeys.
Context {K : Type} `{Key K}.

Definition INDEXED_FIELDS : list string := ["id"; "_status"; "last_modified"]%string.

(** A promise, run against the adapter and its database. *)
Definition promise (A : Type) : Type :=
  adapter K -> JS.outcome A * adapter K.

Definition resolve {A : Type} (a : A) : promise A :=
  fun s => (JS.Resolved a, s).

Definition reject {A : Type} (t : JS.thrown) : promise A :=
  fun s => (JS.Rejected t, s).

Definition then_ {A B : Type} (p : promise A) (f : A -> promise B) : promise B :=
  fun s =>
    match p s with
    | (JS.Resolved a, s') => f a s'
    | (JS.Rejected t, s') => (JS.Rejected t, s')
    | (JS.Pending, s') => (JS.Pending, s')
    end.

Definition catch_ {A : Type} (p : promise A) (h : JS.thrown -> promise A) : promise A :=
  fun s =>
    match p s with
    | (JS.Rejected t, s') => h t s'
    | other => other
    end.

Definition set_db (b : bool) (s : adapter K) : adapter K :=
  Adapter b (collection s) (metadata s) (open_error s) (faults s).

Definition set_collection (c : list (record K)) (s : adapter K) : adapter K :=
  Adapter (_db s) c (metadata s) (open_error s) (faults s).

Definition set_metadata (m : gmap string (option JS.number)) (s : adapter K) : adapter K :=
  Adapter (_db s) (collection s) m (open_error s) (faults s).

(** The fault the engine has in store for the transaction being opened. *)
Definition next_fault (s : adapter K) : option fault * adapter K :=
  match faults s with
  | [] => (None, s)
  | f :: fs => (f, Adapter (_db s) (collection s) (metadata s) (open_error s) fs)
  end.

(** [_handleError(method)]: the handler rethrows a new Error whose message
    is the method name, ["() "] and [err.message].  [err.message] is
    undefined on a number or a string, and reading it throws a TypeError
    on null and undefined. *)
Definition _handleError {A : Type} (method : string) : JS.thrown -> promise A :=
  fun err =>
    match err with
    | JS.ThrownError e => reject (JS.ThrownError (JS.new_Error (method +:+ "() " +:+ JS.message e)))
    | JS.ThrownValue (JS.Num _) | JS.ThrownValue (JS.Str _) =>
        reject (JS.ThrownError (JS.new_Error (method +:+ "() undefined")))
    | JS.ThrownValue _ =>
        reject (JS.ThrownError (JS.Error "TypeError" "err is null or undefined"))
    end.

(** [open]: the stores are those of the database, provisioned on the first
    open. *)
Definition open : promise unit :=
  fun s =>
    if _db s then (JS.Resolved tt, s)
    else
      match open_error s with
      | Some e => (JS.Rejected (JS.ThrownError e), s)
      | None => (JS.Resolved tt, set_db true s)
      end.

(** Modelled from the spec: [super.close()], which [close] ends with, is
    [close] of base.js and is not among the sources; [close] "releases
    the handle synchronously and clears the cached reference", and
    resolves. *)
Definition close : promise unit :=
  fun s => (JS.Resolved tt, set_db false s).

(** A promise settled by a transaction's events: [onerror] rejects with
    [on_error] of the engine's error and the transaction's writes are
    undone, [oncomplete] resolves.  No handler is set for the abort event:
    when the transaction is aborted with no error event, its writes are
    undone and the promise is left pending. *)
Definition transaction {A : Type} (on_error : JS.error -> JS.thrown)
    (body : adapter K -> A * adapter K) : promise A :=
  fun s =>
    let '(fault, s1) := next_fault s in
    match fault with
    | Some (Failing e) => (JS.Rejected (on_error e), s1)
    | Some Aborting => (JS.Pending, s1)
    | None => let '(a, s2) := body s1 in (JS.Resolved a, s2)
    end.

(** [event => reject(new Error(event.target.error))] *)
Definition wrapped (e : JS.error) : JS.thrown :=
  JS.ThrownError (JS.new_Error (JS.error_to_string e)).

(** [event => reject(event.target.error)] *)
Definition raw (e : JS.error) : JS.thrown := JS.ThrownError e.

Definition clear : promise unit :=
  catch_
    (then_ open (fun _ =>
       transaction wrapped (fun s => (tt, set_collection [] s))))
    (_handleError "clear").

Definition get (key : K) : promise (option (record K)) :=
  catch_
    (then_ open (fun _ =>
       transaction wrapped (fun s => (store_get key (collection s), s))))
    (_handleError "get").

(** [x || null] on a number. *)
Definition or_null (n : JS.number) : option JS.number :=
  if JS.truthy (JS.Num n) then Some n else None.

Definition saveLastModified (lastModified : JS.value) : promise (option JS.number) :=
  let value := or_null (JS.parseInt lastModified) in
  then_ open (fun _ =>
    transaction raw (fun s =>
      (value, set_metadata (<["lastModified"%string := value]> (metadata s)) s))).

(** [request.result && request.result.value || null] *)
Definition getLastModified : promise (option JS.number) :=
  then_ open (fun _ =>
    transaction raw (fun s =>
      (match metadata s !! "lastModified"%string with
       | Some (Some n) => or_null n
       | Some None => None
       | None => None
       end, s))).

(** The object [execute] reduces the preloaded records into: [{}] with
    the properties set on it, and the record that has taken the place of
    its prototype, if one has. *)
Record preloaded_object : Type := Preloaded_ {
  own : gmap string (record K);
  proto : option (record K)
}.

(** The own property [name] of a record read from the store. *)
Definition record_property (r : record K) (name : string) : option (property K) :=
  let indexed :=
    if String.eqb name "id" then Some (AKey (id r))
    else if String.eqb name "_status" then
      (fun st => AValue (JS.Str st)) <$> _status r
    else if String.eqb name "last_modified" then
      (fun z => AValue (JS.Num (JS.Int z))) <$> last_modified r
    else None in
  match indexed with
  | Some p => Some p
  | None =>
      (fun f => AValue f.2) <$> List.find (fun f => String.eqb f.1 name) (fields r)
  end.

(** [acc[record.id] = record]: the property name is the printed id.  The
    name ["__proto__"] is that of the accessor of [Object.prototype],
    whose setter makes the record the prototype of [acc], unless the
    prototype is by now a record with a field of that name. *)
Definition set_property (acc : preloaded_object) (r : record K) : preloaded_object :=
  let name := key_to_string (id r) in
  let shadowed :=
    match proto acc with
    | Some r1 => bool_decide (is_Some (record_property r1 name))
    | None => false
    end in
  if String.eqb name "__proto__" && negb shadowed
     && bool_decide (own acc !! name = None)
  then Preloaded_ (own acc) (Some r)
  else Preloaded_ (<[name := r]> (own acc)) (proto acc).

(** [preloaded[id]]: an own property, or else what the prototype chain
    has under that name. *)
Definition get_property (preloaded : preloaded_object) (name : string) : property K :=
  let inherited :=
    if bool_decide (name ∈ JS.object_prototype) then
      match proto preloaded with
      | Some r1 => if String.eqb name "__proto__" then ARecord r1 else Builtin name
      | None => Builtin name
      end
    else NoProperty in
  match own preloaded !! name with
  | Some r => ARecord r
  | None =>
      match proto preloaded with
      | Some r1 => default inherited (record_property r1 name)
      | None => inherited
      end
  end.

(** The callback run against [transactionProxy(store, preloaded)]:
    [create], [update] and [delete] queue an [add], a [put] and a [delete]
    on the store, [get(id)] is [preloaded[id]].  The result is the requests
    queued, in order, and how the callback ended. *)
Fixpoint transactionProxy (preloaded : preloaded_object) (callback : batch K)
  : list (request K) * ending :=
  match callback with
  | Return v => ([], Returned v)
  | Throw t => ([], Threw t)
  | Create r next =>
      let '(queued, e) := transactionProxy preloaded next in (Add r :: queued, e)
  | Update r next =>
      let '(queued, e) := transactionProxy preloaded next in (Put r :: queued, e)
  | Remove key next =>
      let '(queued, e) := transactionProxy preloaded next in (Delete key :: queued, e)
  | Get key next =>
      transactionProxy preloaded (next (get_property preloaded (key_to_string key)))
  end.

(** A cursor request on the index on [path], with the handler for an
    array of values or for a single one. *)
Definition query_index {A : Type} `{Key A} (path : record K -> option A)
    (value : filter_value A) (store : list (record K)) : option (list (record K)) :=
  match value with
  | Many values =>
      run_cursor (cursorHandlers_in values) (index_entries path store) None []
  | One v =>
      run_cursor cursorHandlers_all (only v (index_entries path store)) None []
  end.

(** The records by id, as the [reduce] of [execute] stores them, from
    [{}]. *)
Definition by_id (records : list (record K)) : preloaded_object :=
  foldl set_property (Preloaded_ ∅ None) records.

(** [execute(callback, {preload})].  The engine's fault, if any, hits the
    transaction once the callback has run and the handlers are set: the
    read of the preload is taken not to fail.  [Pending]: the cursor
    handler threw, or the transaction was aborted with no error event,
    and nothing settles the promise. *)
Definition execute (callback : batch K) (preload : list K) : promise JS.value :=
  then_ open (fun _ s =>
    let '(fault, s1) := next_fault s in
    match query_index (fun r => Some (id r)) (Many preload) (collection s1) with
    | None => (JS.Pending, s1)
    | Some records =>
        let preloaded := by_id records in
        match transactionProxy preloaded callback with
        | (_, Threw e) =>
            (* transaction.abort(); reject(e) *)
            (JS.Rejected e, s1)
        | (queued, Returned APromise) =>
            (* rejected at once; the transaction goes on *)
            (JS.Rejected (JS.ThrownError
               (JS.new_Error "execute() callback should not return a Promise.")),
             match run_requests queued (collection s1), fault with
             | Some c, None => set_collection c s1
             | _, _ => s1
             end)
        | (queued, Returned (Value v)) =>
            match run_requests queued (collection s1), fault with
            | None, _ => (JS.Rejected (wrapped constraint_error), s1)
            | Some _, Some (Failing e) => (JS.Rejected (wrapped e), s1)
            | Some _, Some Aborting => (JS.Pending, s1)
            | Some c, None => (JS.Resolved v, set_collection c s1)
            end
        end
    end).

(** [array.indexOf(x)]: the first position of [x], or -1. *)
Fixpoint indexOf (x : string) (l : list string) : Z :=
  match l with
  | [] => -1
  | y :: l' =>
      if String.eqb y x then 0
      else let i := indexOf x l' in if i =? -1 then -1 else i + 1
  end.

(** [findIndexedField(filters)]; the filters are listed in the order of
    [Object.keys(filters)]. *)
Definition findIndexedField (filters : list (criterion K)) : option string :=
  let filteredFields := field_of <$> filters in
  let indexedFields :=
    List.filter (fun field => negb (indexOf field INDEXED_FIELDS =? -1)) filteredFields in
  head indexedFields.

(** [filters[field]] and [delete filters[field]] *)
Definition filter_on (field : string) (filters : list (criterion K)) : option (criterion K) :=
  List.find (fun c => String.eqb (field_of c) field) filters.

Definition without (field : string) (filters : list (criterion K)) : list (criterion K) :=
  List.filter (fun c => negb (String.eqb (field_of c) field)) filters.

(** A property name from a string or undefined. *)
Definition property_name (field : option string) : string :=
  default "undefined"%string field.

(** [createListRequest(store, indexField, value, done)]: what [done]
    receives.  [store.index(indexField)] is the index the filter was
    written for; a filter on an indexed field is never an [OnOther]. *)
Definition createListRequest (store : list (record K)) (indexField : option string)
    (value : option (criterion K)) : option (list (record K)) :=
  match indexField with
  | None =>
      run_cursor cursorHandlers_all
        (index_entries (fun r => Some (id r)) store) None []
  | Some _ =>
      match value with
      | Some (OnId v) => query_index (fun r => Some (id r)) v store
      | Some (OnStatus v) => query_index _status v store
      | Some (OnLastModified v) => query_index last_modified v store
      | Some (OnOther _ _) | None => None
      end
  end.

Section Listing.
(** [reduceRecords(filters, order, records)] of ../utils. *)
Variable reduceRecords :
  list (criterion K) -> option string -> list (record K) -> list (record K).

Definition list_ (filters : list (criterion K)) (order : option string)
  : promise (list (record K)) :=
  let indexField := findIndexedField filters in
  let value := filter_on (property_name indexField) filters in
  catch_
    (then_
       (then_ open (fun _ s =>
          let '(fault, s1) := next_fault s in
          match createListRequest (collection s1) indexField value with
          | None => (JS.Pending, s1)
          | Some results =>
              match fault with
              | Some (Failing e) => (JS.Rejected (wrapped e), s1)
              | Some Aborting => (JS.Pending, s1)
              | None => (JS.Resolved results, s1)
              end
          end))
       (fun results =>
          let remainingFilters := without (property_name indexField) filters in
          resolve (reduceRecords remainingFilters order results)))
    (_handleError "list").
End Listing.

(** ToNumber of a record's [last_modified]. *)
Definition last_modified_number (r : record K) : JS.number :=
  match last_modified r with
  | Some z => JS.Int z
  | None => JS.NaN
  end.

Definition loadDump (records : list (record K)) : promise (list (record K)) :=
  catch_
    (then_
       (then_
          (then_
             (execute (foldr Update (Return (Value JS.Undefined)) records) [])
             (fun _ => getLastModified))
          (fun previousLastModified =>
             let lastModified := JS.math_max (last_modified_number <$> records) in
             if JS.number_gt lastModified
                  (JS.null_or_number_to_number previousLastModified)
             then then_ (saveLastModified (JS.Num lastModified)) (fun _ => resolve tt)
             else resolve tt))
       (fun _ => resolve records))
    (_handleError "loadDump").

End WithKeys.
End IDB.

(** * The vocabulary of the properties *)

Section Vocabulary.
Context {K : Type} `{Key K}.

(** The selection as the specification words it: the first of
    [INDEXED_FIELDS], in that order, that the filters name. *)
Definition first_by_priority (filters : list (criterion K)) : option string :=
  head (List.filter
          (fun field => negb (IDB.indexOf field (field_of <$> filters) =? -1))
          IDB.INDEXED_FIELDS).

(** The connection is open, or opens. *)
Definition connects (s : adapter K) : Prop :=
  _db s = true \/ open_error s = None.

(** The connection is open or opens, and the engine fails no coming
    transaction. *)
Definition working (s : adapter K) : Prop :=
  connects s /\ Forall (fun f => f = None) (faults s).

(** Modelled from the spec: [reduceRecords] of ../utils is not among the
    sources.  It "applies residual equality/range filters and a stable
    sort [...] over the candidate set": with no filter left it returns
    the candidates, in some order. *)
Definition reduces
    (reduceRecords : list (criterion K) -> option string ->
                     list (record K) -> list (record K)) : Prop :=
  forall order records, reduceRecords [] order records ≡ₚ records.

(** The index on [id]: one entry per record. *)
Definition by_primary_key (r : record K) : option K := Some (id r).

(** The records of the store whose id is one of [values]. *)
Definition with_id_in (values : list K) (store : list (record K)) : list (record K) :=
  List.filter (fun r => existsb (key_strict_eq (id r)) values) store.

(** What [execute] preloads: the records the IN query over the [id]
    index delivers for [preload], from the collection as it is when the
    transaction starts, by id. *)
Definition preloaded_for (preload : list K) (s : adapter K) : IDB.preloaded_object :=
  IDB.by_id
    (default [] (IDB.query_index by_primary_key (Many preload) (collection s))).

(** The callback with each [get] already answered from [preloaded]. *)
Fixpoint answer_gets (preloaded : IDB.preloaded_object) (callback : batch K) : batch K :=
  match callback with
  | Return v => Return v
  | Throw t => Throw t
  | Create r next => Create r (answer_gets preloaded next)
  | Update r next => Update r (answer_gets preloaded next)
  | Remove key next => Remove key (answer_gets preloaded next)
  | Get key next =>
      answer_gets preloaded (next (IDB.get_property preloaded (key_to_string key)))
  end.

(** What [list] resolves with on a collection, when nothing fails. *)
Definition listed reduceRecords (filters : list (criterion K)) (order : option string)
    (store : list (record K)) : JS.outcome (list (record K)) :=
  let indexField := IDB.findIndexedField filters in
  match IDB.createListRequest store indexField
          (IDB.filter_on (IDB.property_name indexField) filters) with
  | Some results =>
      JS.Resolved
        (reduceRecords (IDB.without (IDB.property_name indexField) filters) order results)
  | None => JS.Pending
  end.

(** The number [loadDump] compares and saves. *)
Definition dump_maximum (records : list (record K)) : JS.number :=
  JS.math_max (IDB.last_modified_number <$> records).

End Vocabulary.

(** [parseInt(x, 10) || null] is null when the parse is NaN or 0, and the
    parsed integer otherwise. *)
Definition integer_or_null (n : JS.number) : option JS.number :=
  match n with
  | JS.Int z => if z =? 0 then None else Some (JS.Int z)
  | _ => None
  end.

(** What [getLastModified] reads off the metadata store. *)
Definition stored_lastModified (m : gmap string (option JS.number)) : option JS.number :=
  match m !! "lastModified"%string with
  | Some (Some n) => IDB.or_null n
  | Some None | None => None
  end.


(** [a] may come before [b]. *)
Definition not_after {B : Type} (lt : B -> B -> bool) (a b : B) : Prop :=
  lt b a = false.

(** The entry's key is one of the values. *)
Definition asked_for {A : Type} `{Key A} {R : Type} (values : list A) (e : A * R)
  : bool :=
  existsb (key_strict_eq e.1) values.

(** The value of a digit sequence read onto [acc]. *)
Fixpoint uint_value (d : Decimal.uint) (acc : Z) : Z :=
  match d with
  | Decimal.Nil => acc
  | Decimal.D0 d => uint_value d (10 * acc + 0)
  | Decimal.D1 d => uint_value d (10 * acc + 1)
  | Decimal.D2 d => uint_value d (10 * acc + 2)
  | Decimal.D3 d => uint_value d (10 * acc + 3)
  | Decimal.D4 d => uint_value d (10 * acc + 4)
  | Decimal.D5 d => uint_value d (10 * acc + 5)
  | Decimal.D6 d => uint_value d (10 * acc + 6)
  | Decimal.D7 d => uint_value d (10 * acc + 7)
  | Decimal.D8 d => uint_value d (10 * acc + 8)
  | Decimal.D9 d => uint_value d (10 * acc + 9)
  end.

(** Every character of the text passes the test. *)
Fixpoint every (p : ascii -> bool) (s : string) : Prop :=
  match s with
  | EmptyString => True
  | String c s' => p c = true /\ every p s'
  end.

Definition is_digit (c : ascii) : bool :=
  let n := nat_of_ascii c in ((48 <=? n) && (n <=? 57))%nat.

(** [Number.isSafeInteger]: an integer of magnitude below 2^53. *)
Definition safe_integer (z : Z) : Prop :=
  - 9007199254740992 < z < 9007199254740992.

(** A store of two records, with 5 for stored [lastModified]. *)
Definition alpha : record string :=
  Record_ "a" (Some "synced") (Some 5) [("title", JS.Str "foo")]%string.

Definition beta : record string :=
  Record_ "b" (Some "created") None [("title", JS.Str "bar")]%string.

Definition two_records : adapter string :=
  Adapter false [alpha; beta] (<["lastModified"%string := Some (JS.Int 5)]> ∅) None [].

(** A callback that updates [alpha], deletes [beta] and throws. *)
Definition throwing : batch string :=
  Update (Record_ "a" (Some "updated") (Some 9) []) 
    (Remove "b" (Throw (JS.ThrownValue (JS.Str "boom"))))%string.

(** A callback that creates a record and returns a Promise. *)
Definition deferred : batch string :=
  Create (Record_ "c" None None []) (Return APromise).

(** A callback that updates [alpha], reads it back, and reads [beta],
    which is in the store and was not preloaded; it returns the title it
    read for [alpha] and throws if it got a record for [beta]. *)
Definition reading : batch string :=
  Update (Record_ "a" (Some "updated") (Some 9) [("title", JS.Str "new")])
    (Get "a" (fun a =>
       Get "b" (fun b =>
         match a, b with
         | ARecord r, NoProperty =>
             Return (Value (default JS.Undefined (snd <$> head (fields r))))
         | _, _ => Throw (JS.ThrownValue (JS.Str "unexpected"))
         end)))%string.

(** A callback that reads one id and tells whether [get] returned
    undefined. *)
Definition probing {K : Type} (key : K) : batch K :=
  Get key (fun got =>
    Return (Value (JS.Str match got with
                          | NoProperty => "undefined"
                          | _ => "defined"
                          end))).

(** ** The vocabulary of the further properties *)

Section MoreVocabulary.
Context {K : Type} `{Key K}.

(** The record has an entry of key [v] in the index on [path]. *)
Definition has_key {A : Type} `{Key A} (path : record K -> option A) (v : A)
    (r : record K) : bool :=
  match path r with
  | Some k => same_key k v
  | None => false
  end.

(** The record has an entry in the index on [path] whose key is one of
    [values]. *)
Definition has_key_in {A : Type} `{Key A} (path : record K -> option A)
    (values : list A) (r : record K) : bool :=
  match path r with
  | Some k => existsb (key_strict_eq k) values
  | None => false
  end.

(** The store after a [put] of each record in turn. *)
Definition put_all (records : list (record K)) (store : list (record K))
  : list (record K) :=
  foldl (fun store r => store_put r store) store records.

(** A filter on a field without index does not bear the name of an
    indexed field. *)
Definition well_formed (filters : list (criterion K)) : Prop :=
  Forall (fun c => match c with
                   | OnOther name _ => ~ In name IDB.INDEXED_FIELDS
                   | _ => True
                   end) filters.

(** The engine aborts one of the coming transactions with no error
    event. *)
Definition aborted (s : adapter K) : Prop := Some Aborting ∈ faults s.

(** The engine fails one of the coming transactions, one way or the
    other. *)
Definition failing (s : adapter K) : Prop := exists f, Some f ∈ faults s.

(** Every [last_modified] of the dump is a safe integer. *)
Definition safe_dump (records : list (record K)) : Prop :=
  Forall (fun r => forall z, last_modified r = Some z -> safe_integer z) records.

(** The message of the error is [method] followed by ["() "] and some
    text: the mark of [_handleError(method)]. *)
Definition named_after (method : string) (t : JS.thrown) : Prop :=
  exists text, t = JS.ThrownError (JS.Error "Error" (method +:+ "() " +:+ text)).

End MoreVocabulary.

(** * Properties *)

(** ** The primitives on examples *)

Example parseInt_42 : JS.parseInt (JS.Str "42") = JS.Int 42.
Proof. reflexivity. Qed.

Example parseInt_words : JS.parseInt (JS.Str "notanumber") = JS.NaN.
Proof. reflexivity. Qed.

Example parseInt_number : JS.parseInt (JS.Num (JS.Int (-1234))) = JS.Int (-1234).
Proof. vm_compute. reflexivity. Qed.

Example toString_1e21 :
  JS.number_to_string (JS.Int 1000000000000000000000) = "1e+21"%string.
Proof. reflexivity. Qed.

Example toString_below_1e21 :
  JS.number_to_string (JS.Int 123456789012345000000) = "123456789012345000000"%string.
Proof. reflexivity. Qed.

Example toString_exponent :
  JS.number_to_string (JS.Int (-1500000000000000000000)) = "-1.5e+21"%string.
Proof. reflexivity. Qed.

Example parseInt_1e21 : JS.parseInt (JS.Str "1e+21") = JS.Int 1.
Proof. reflexivity. Qed.

Example parseInt_rounds :
  JS.parseInt (JS.Str "9007199254740993") = JS.Int 9007199254740992.
Proof. by vm_compute. Qed.

Example parseInt_rounds_to_even :
  JS.parseInt (JS.Str "9007199254740995") = JS.Int 9007199254740996.
Proof. by vm_compute. Qed.

Example sort_strings : array_sort ["b"; "a"; "c"]%string = ["a"; "b"; "c"]%string.
Proof. reflexivity. Qed.

Example sort_numbers : array_sort [9; 10; 3] = [10; 3; 9].
Proof. vm_compute. reflexivity. Qed.

(** ** Index selection *)

Section IndexSelection.
Context {K : Type}.

Lemma indexOf_lower (x : string) (l : list string) : -1 <= IDB.indexOf x l.
Proof.
  induction l as [|y l IH]; simpl; [lia|].
  destruct (String.eqb y x); [lia|].
  destruct (Z.eqb_spec (IDB.indexOf x l) (-1)); lia.
Qed.

Lemma indexOf_absent (x : string) (l : list string) :
  IDB.indexOf x l = -1 <-> ~ In x l.
Proof.
  induction l as [|y l IH]; simpl; [tauto|].
  destruct (String.eqb_spec y x) as [->|Hne].
  - split; [lia | tauto].
  - pose proof (indexOf_lower x l).
    destruct (Z.eqb_spec (IDB.indexOf x l) (-1)) as [E|E].
    + split; [intros _ [?|?]; [done | tauto] | done].
    + split; [lia | intros Hn; exfalso; apply E, IH; tauto].
Qed.

Lemma head_filter_first {B : Type} (p : B -> bool) (l : list B) (x : B) :
  head (List.filter p l) = Some x <->
  exists before after,
    l = before ++ x :: after /\ p x = true /\ Forall (fun y => p y = false) before.
Proof.
  induction l as [|y l IH]; simpl.
  - split; [done | intros ([|? ?] & ? & ? & _); done].
  - destruct (p y) eqn:Hy; simpl.
    + split.
      * intros [= ->]. exists [], l. by repeat split.
      * intros ([|z before] & after & Hl & Hx & Hb); simpl in Hl.
        -- congruence.
        -- injection Hl as -> ->. inversion Hb; congruence.
    + rewrite IH. split.
      * intros (before & after & -> & Hx & Hb).
        exists (y :: before), after. by repeat split; [|constructor].
      * intros ([|z before] & after & Hl & Hx & Hb); simpl in Hl.
        -- congruence.
        -- injection Hl as -> ->. exists before, after.
           by repeat split; [|inversion Hb].
Qed.

Lemma head_filter_none {B : Type} (p : B -> bool) (l : list B) :
  head (List.filter p l) = None <-> Forall (fun y => p y = false) l.
Proof.
  induction l as [|y l IH]; simpl; [by split|].
  destruct (p y) eqn:Hy; simpl.
  - split; [done | inversion 1; congruence].
  - rewrite IH. split; [by constructor | by inversion 1].
Qed.

(** C2, as the code has it: the field [findIndexedField] returns is the
    first of the filters' own fields, in the order [Object.keys] lists
    them, that is one of [id], [_status] and [last_modified]; it is
    undefined exactly when the filters name no indexed field.  The result
    is a single field, so a query opens at most one index. *)
Theorem findIndexedField_first_in_filter_order (filters : list (criterion K)) :
  (forall field : string,
     IDB.findIndexedField filters = Some field <->
     exists before after,
       field_of <$> filters = before ++ field :: after /\
       In field IDB.INDEXED_FIELDS /\
       Forall (fun f => ~ In f IDB.INDEXED_FIELDS) before) /\
  (IDB.findIndexedField filters = None <->
   Forall (fun f => ~ In f IDB.INDEXED_FIELDS) (field_of <$> filters)).
Proof.
  assert (Hin : forall f : string,
    negb (IDB.indexOf f IDB.INDEXED_FIELDS =? -1) = true <-> In f IDB.INDEXED_FIELDS).
  { intros f. pose proof (indexOf_absent f IDB.INDEXED_FIELDS) as Hab.
    destruct (Z.eqb_spec (IDB.indexOf f IDB.INDEXED_FIELDS) (-1)) as [E|E]; simpl.
    - split; [done | intros Hf; by apply Hab in E].
    - split; [intros _ | done].
      destruct (In_dec string_dec f IDB.INDEXED_FIELDS) as [?|Hn]; [done|].
      by apply Hab in Hn. }
  assert (Hout : forall f : string,
    negb (IDB.indexOf f IDB.INDEXED_FIELDS =? -1) = false <-> ~ In f IDB.INDEXED_FIELDS).
  { intros f. rewrite <- Hin. by destruct (negb _). }
  unfold IDB.findIndexedField. split.
  - intros field. rewrite head_filter_first.
    split; intros (before & after & Hl & Hx & Hb); exists before, after;
      (split; [done|]); (split; [by apply Hin|]);
      eapply Forall_impl; try exact Hb; intros f; apply Hout.
  - rewrite head_filter_none.
    split; intros Hb; eapply Forall_impl; try exact Hb; intros f; apply Hout.
Qed.

End IndexSelection.

(** C2 as stated fails: with [_status] written before [id] in the filters,
    the code selects [_status], the priority order selects [id]. *)
Lemma findIndexedField_not_by_priority :
  let filters : list (criterion string) :=
    [OnStatus (One "created"%string); OnId (One "a"%string)] in
  IDB.findIndexedField filters = Some "_status"%string /\
  first_by_priority filters = Some "id"%string /\
  IDB.findIndexedField filters <> first_by_priority filters.
Proof. by vm_compute. Qed.

(** ** Metadata and the collection store *)

Section Bookkeeping.
Context {K : Type} `{Key K}.

Lemma connects_open (s : adapter K) :
  connects s -> IDB.open s = (JS.Resolved tt, IDB.set_db true s).
Proof.
  destruct s as [db c m oe fs]. intros [Hd|Ho]; simpl in *; subst; [done|].
  unfold IDB.open; simpl. by destruct db.
Qed.

Lemma working_open (s : adapter K) :
  working s ->
  IDB.open s = (JS.Resolved tt, IDB.set_db true s) /\ working (IDB.set_db true s).
Proof.
  destruct s as [db c m oe fs]. intros [[Hd|Ho] Hf]; simpl in *; subst.
  - split; [done | split; [by left | done]].
  - unfold IDB.open; simpl. destruct db; (split; [done | split; [by left | done]]).
Qed.

Lemma working_next_fault (s : adapter K) :
  working s ->
  exists s', IDB.next_fault s = (None, s') /\ working s' /\
    _db s' = _db s /\ collection s' = collection s /\ metadata s' = metadata s.
Proof.
  destruct s as [db c m oe fs]. intros [Hd Hf]; simpl in *.
  unfold IDB.next_fault; simpl. destruct fs as [|f fs].
  - eexists; split; [done|]. by repeat split.
  - inversion Hf; subst. eexists; split; [done|]. by repeat split.
Qed.

Lemma or_null_idempotent (n : JS.number) :
  match IDB.or_null n with Some n' => IDB.or_null n' | None => None end
  = IDB.or_null n.
Proof. unfold IDB.or_null. destruct (JS.truthy (JS.Num n)) eqn:E; [by rewrite E | done]. Qed.


Lemma working_set_metadata (s : adapter K) m :
  working s -> working (IDB.set_metadata m s).
Proof. by destruct s. Qed.

Lemma working_set_collection (s : adapter K) c :
  working s -> working (IDB.set_collection c s).
Proof. by destruct s. Qed.

Lemma saveLastModified_working (v : JS.value) (s : adapter K) :
  working s ->
  exists s1,
    IDB.saveLastModified v s = (JS.Resolved (IDB.or_null (JS.parseInt v)), s1) /\
    working s1 /\
    metadata s1 = <["lastModified"%string := IDB.or_null (JS.parseInt v)]> (metadata s) /\
    collection s1 = collection s.
Proof.
  intros Hw. unfold IDB.saveLastModified, IDB.then_, IDB.transaction.
  destruct (working_open s Hw) as [-> Hw1].
  destruct (working_next_fault _ Hw1) as (s2 & -> & Hw2 & _ & Hc & Hm).
  eexists; split; [done|]. split; [by apply working_set_metadata|].
  destruct s2, s; simpl in *. by subst.
Qed.

Lemma getLastModified_working (s : adapter K) :
  working s ->
  exists s1,
    IDB.getLastModified s = (JS.Resolved (stored_lastModified (metadata s)), s1) /\
    working s1 /\ metadata s1 = metadata s /\ collection s1 = collection s.
Proof.
  intros Hw. unfold IDB.getLastModified, IDB.then_, IDB.transaction.
  destruct (working_open s Hw) as [-> Hw1].
  destruct (working_next_fault _ Hw1) as (s2 & -> & Hw2 & _ & Hc & Hm).
  exists s2. unfold stored_lastModified. rewrite Hm, Hc.
  by destruct s.
Qed.


(** C10: zero cannot be told from absence.  [saveLastModified(0)] stores
    and resolves null, and [getLastModified()] resolves null when the
    stored value is 0 and when there is no entry. *)
Theorem lastModified_zero_is_null (s : adapter K) :
  working s ->
  (exists s1,
     IDB.saveLastModified (JS.Num (JS.Int 0)) s = (JS.Resolved None, s1) /\
     metadata s1 !! "lastModified"%string = Some None) /\
  (metadata s !! "lastModified"%string = Some (Some (JS.Int 0)) \/
   metadata s !! "lastModified"%string = None ->
   (IDB.getLastModified s).1 = JS.Resolved None).
Proof.
  intros Hw. split.
  - destruct (saveLastModified_working (JS.Num (JS.Int 0)) s Hw) as (s1 & Hs & _ & Hm & _).
    exists s1. split; [exact Hs|]. rewrite Hm. apply lookup_insert_eq.
  - intros Hm. destruct (getLastModified_working s Hw) as (s1 & -> & _). simpl.
    unfold stored_lastModified. by destruct Hm as [-> | ->].
Qed.

Lemma clear_working (s : adapter K) :
  working s ->
  exists s1,
    IDB.clear s = (JS.Resolved tt, s1) /\ working s1 /\
    collection s1 = [] /\ metadata s1 = metadata s.
Proof.
  intros Hw. unfold IDB.clear, IDB.catch_, IDB.then_, IDB.transaction.
  destruct (working_open s Hw) as [-> Hw1].
  destruct (working_next_fault _ Hw1) as (s2 & -> & Hw2 & _ & Hc & Hm).
  eexists; split; [done|]. split; [by apply working_set_collection|].
  destruct s2, s; simpl in *. by subst.
Qed.

Lemma list_no_filter_working reduceRecords order (s : adapter K) :
  working s ->
  exists s1,
    IDB.list_ reduceRecords [] order s
    = (JS.Resolved
         (reduceRecords [] order
            (default []
               (run_cursor cursorHandlers_all
                  (index_entries (fun r => Some (id r)) (collection s)) None []))),
       s1).
Proof.
  intros Hw. unfold IDB.list_, IDB.catch_, IDB.then_, IDB.resolve; simpl.
  destruct (working_open s Hw) as [-> Hw1].
  destruct (working_next_fault _ Hw1) as (s2 & -> & Hw2 & _ & Hc & Hm).
  rewrite Hc. destruct s as [db c m oe fs]; simpl.
  assert (forall (entries : list (K * record K)) rs,
    run_cursor cursorHandlers_all entries None rs = Some (rs ++ entries.*2)) as Hall.
  { induction entries as [|[k v] entries IH]; intros rs; simpl.
    - by rewrite app_nil_r.
    - rewrite IH. by rewrite <- app_assoc. }
  rewrite Hall. simpl. by eexists.
Qed.

(** C9: [clear()] resolves, leaves the collection store empty and the
    metadata store as it was: a [list] with no filter then resolves with
    the empty sequence, and [getLastModified()] with what it resolved
    with before. *)
Theorem clear_empties_collection_only reduceRecords (s : adapter K) :
  reduces reduceRecords ->
  working s ->
  exists s1,
    IDB.clear s = (JS.Resolved tt, s1) /\
    collection s1 = [] /\
    metadata s1 = metadata s /\
    (forall order, (IDB.list_ reduceRecords [] order s1).1 = JS.Resolved []) /\
    (IDB.getLastModified s1).1 = (IDB.getLastModified s).1.
Proof.
  intros Hred Hw.
  destruct (clear_working s Hw) as (s1 & Hclear & Hw1 & Hc & Hm).
  exists s1. repeat split; try done.
  - intros order.
    destruct (list_no_filter_working reduceRecords order s1 Hw1) as (s2 & ->).
    rewrite Hc. simpl. f_equal.
    apply Permutation_nil_r. apply (Hred order []).
  - destruct (getLastModified_working s Hw) as (s2 & -> & _).
    destruct (getLastModified_working s1 Hw1) as (s3 & -> & _).
    simpl. by rewrite Hm.
Qed.

End Bookkeeping.

(** ** Sorting *)

Section SortBy.
Context {B : Type} (lt : B -> B -> bool).
Hypothesis lt_asym : forall a b, lt a b = true -> lt b a = false.
Hypothesis lt_neg_trans :
  forall a b c, lt b a = false -> lt c b = false -> lt c a = false.

Lemma insert_by_perm (x : B) (l : list B) : insert_by lt x l ≡ₚ x :: l.
Proof.
  induction l as [|y l IH]; simpl; [done|].
  destruct (lt y x); [|done].
  rewrite IH. apply Permutation_swap.
Qed.

Lemma sort_by_perm (l : list B) : sort_by lt l ≡ₚ l.
Proof.
  induction l as [|x l IH]; simpl; [done|].
  rewrite insert_by_perm. by rewrite IH.
Qed.

Lemma insert_by_sorted (x : B) (l : list B) :
  StronglySorted (not_after lt) l -> StronglySorted (not_after lt) (insert_by lt x l).
Proof.
  induction l as [|y l IH]; simpl; intros Hs.
  - repeat constructor.
  - apply StronglySorted_cons in Hs as [Hy Hl].
    destruct (lt y x) eqn:E.
    + apply StronglySorted_cons. split; [|by apply IH].
      rewrite insert_by_perm. constructor; [|done].
      by apply lt_asym.
    + apply StronglySorted_cons. split; [|by apply StronglySorted_cons].
      constructor; [done|].
      eapply Forall_impl; [exact Hy|]. intros z Hz.
      unfold not_after in *. by eapply lt_neg_trans.
Qed.

Lemma sort_by_sorted (l : list B) : StronglySorted (not_after lt) (sort_by lt l).
Proof.
  induction l as [|x l IH]; simpl; [constructor|].
  by apply insert_by_sorted.
Qed.

End SortBy.

Lemma sort_by_ext {B : Type} (lt lt' : B -> B -> bool) (l : list B) :
  (forall a b, lt a b = lt' a b) -> sort_by lt l = sort_by lt' l.
Proof.
  intros Hext. induction l as [|x l IH]; simpl; [done|].
  rewrite IH. generalize (sort_by lt' l). intros l'.
  induction l' as [|y l' IH']; simpl; [done|].
  by rewrite Hext, IH'.
Qed.

Lemma string_leb_ltb (a b : string) : String.leb a b = negb (String.ltb b a).
Proof.
  unfold String.leb, String.ltb. rewrite (String.compare_antisym b a).
  by destruct (String.compare a b).
Qed.

Section KeyOrder.
Context {A : Type} `{KeyLaws A}.

Lemma key_lt_asym (a b : A) : key_lt a b = true -> key_lt b a = false.
Proof.
  intros Hab. destruct (key_lt b a) eqn:Hba; [|done].
  by rewrite <- (key_lt_irrefl a), (key_lt_trans a b a).
Qed.

Lemma key_lt_neg_trans (a b c : A) :
  key_lt b a = false -> key_lt c b = false -> key_lt c a = false.
Proof.
  intros Hba Hcb. destruct (key_lt c a) eqn:Hca; [|done].
  destruct (key_lt a b) eqn:Hab.
  - by rewrite <- Hcb, (key_lt_trans c a b).
  - rewrite (key_lt_connex a b Hab Hba) in Hca. congruence.
Qed.

Lemma same_key_eq (a b : A) : same_key a b = true <-> a = b.
Proof.
  unfold same_key. split.
  - intros [Hab Hba]%andb_true_iff.
    apply negb_true_iff in Hab, Hba. by apply key_lt_connex.
  - intros ->. by rewrite key_lt_irrefl.
Qed.

(** With strings for keys, [sort()] sorts by the key order. *)
Lemma array_sort_by_key_lt `{!SortAgrees A} (values : list A) :
  array_sort values = sort_by key_lt values.
Proof.
  unfold array_sort, sort_by.
  induction values as [|x l IH]; simpl; [done|].
  rewrite IH. generalize (foldr (insert_by key_lt) [] l). intros l'.
  induction l' as [|y l' IH']; simpl; [done|].
  unfold sort_before. rewrite string_leb_ltb, sort_agrees, IH'.
  by destruct (key_lt y x).
Qed.

End KeyOrder.

(** ** The merge-join of [cursorHandlers.in] *)

Lemma sort_insert_perm {A : Type} `{Key A} (x : A) (l : list A) :
  sort_insert x l ≡ₚ x :: l.
Proof.
  induction l as [|y l IH]; simpl; [done|].
  destruct (sort_before x y); [done|].
  rewrite IH. apply Permutation_swap.
Qed.

Lemma array_sort_perm {A : Type} `{Key A} (l : list A) : array_sort l ≡ₚ l.
Proof.
  induction l as [|x l IH]; simpl; [done|].
  rewrite sort_insert_perm. by rewrite IH.
Qed.

Section MergeJoin.
Context {A : Type} `{KeyLaws A} {R : Type}.

Lemma skip_passed_found (key v : A) (values : list A) :
  skip_passed key values = Some (Some v) -> v ∈ values /\ key_gt key v = false.
Proof.
  induction values as [|w values IH]; simpl; [done|].
  destruct (key_gt key w) eqn:E.
  - destruct values as [|w' values]; [done|].
    intros Hs. destruct (IH Hs) as [Hin Hgt]. split; [by right | done].
  - intros [= ->]. split; [by left | done].
Qed.

Lemma skip_passed_undefined (key : A) (values : list A) :
  skip_passed key values = Some None -> values = [].
Proof.
  induction values as [|w values IH]; simpl; [done|].
  destruct (key_gt key w); [|done].
  destruct values as [|w' values]; [done|].
  intros Hs. by specialize (IH Hs).
Qed.

(** A key asked for by [continue(key)] is above the cursor. *)
Lemma continue_target_above (key v : A) (values : list A) :
  skip_passed key values = Some (Some v) ->
  key_strict_eq key v = false ->
  key_lt key v = true.
Proof.
  intros [_ Hgt]%skip_passed_found Hne.
  rewrite key_gt_lt in Hgt.
  destruct (key_lt key v) eqn:Hlt; [done|].
  assert (key = v) as Heq by by apply key_lt_connex.
  apply key_strict_eq_spec in Heq. congruence.
Qed.

(** The handler of an IN query never throws: the request runs to a call
    of [done]. *)
Lemma in_query_total (values : list A) (entries : list (A * R))
    (target : option A) (results : list R) :
  exists rs, run_cursor (cursorHandlers_in values) entries target results = Some rs.
Proof.
  revert target results.
  induction entries as [|[k r] entries IH]; intros target results; simpl.
  - by eexists.
  - destruct (match target with Some t => key_lt k t | None => false end);
      [apply IH|].
    destruct (skip_passed k (array_sort values)) as [[v|]|] eqn:Hs;
      [|apply IH|by eexists].
    destruct (key_strict_eq k v) eqn:He; [apply IH|].
    rewrite (continue_target_above _ _ _ Hs He). apply IH.
Qed.

(** Whatever the order of the sorted values, what the handler pushes are
    values of entries whose key is one of the values asked for. *)
Lemma in_query_sound (values : list A) (entries : list (A * R))
    (target : option A) (results rs : list R) :
  run_cursor (cursorHandlers_in values) entries target results = Some rs ->
  exists picked,
    rs = results ++ picked.*2 /\
    picked ⊆ entries /\
    Forall (fun e => e.1 ∈ values) picked.
Proof.
  revert target results.
  induction entries as [|[k r] entries IH]; intros target results; simpl.
  - intros [= <-]. exists []. by rewrite app_nil_r.
  - assert (Hrest : forall target' results',
      run_cursor (cursorHandlers_in values) entries target' results' = Some rs ->
      exists picked, rs = results' ++ picked.*2 /\
        picked ⊆ (k, r) :: entries /\ Forall (fun e => e.1 ∈ values) picked).
    { intros target' results' Hrun.
      destruct (IH _ _ Hrun) as (picked & -> & Hsub & Hall).
      exists picked. repeat split; [|done].
      intros e He'. right. by apply Hsub. }
    destruct (match target with Some t => key_lt k t | None => false end);
      [apply Hrest|].
    destruct (skip_passed k (array_sort values)) as [[v|]|] eqn:Hs.
    + destruct (key_strict_eq k v) eqn:He.
      * intros Hrun. destruct (IH _ _ Hrun) as (picked & -> & Hsub & Hall).
        exists ((k, r) :: picked). rewrite <- app_assoc. repeat split.
        -- intros e [->|He']%elem_of_cons; [by left | right; by apply Hsub].
        -- constructor; [|done]. simpl.
           apply key_strict_eq_spec in He as ->.
           apply skip_passed_found in Hs as [Hin _].
           by rewrite array_sort_perm in Hin.
      * destruct (key_lt k v); [apply Hrest | done].
    + apply Hrest.
    + intros [= <-]. exists []. rewrite app_nil_r. repeat split; [|done].
      intros e He'. by apply elem_of_nil in He'.
Qed.

End MergeJoin.

Section MergeJoinComplete.
Context {A : Type} `{KeyLaws A} `{!SortAgrees A} {R : Type}.

Lemma asked_for_spec (values : list A) (e : A * R) :
  asked_for values e = true <-> e.1 ∈ values.
Proof.
  unfold asked_for. rewrite existsb_exists. split.
  - intros (v & Hin & ->%key_strict_eq_spec). by apply list_elem_of_In.
  - intros Hin. exists e.1. split; [by apply list_elem_of_In|].
    by apply key_strict_eq_spec.
Qed.

Lemma asked_for_false (values : list A) (e : A * R) :
  e.1 ∉ values -> asked_for values e = false.
Proof.
  intros Hn. destruct (asked_for values e) eqn:E; [|done].
  by apply asked_for_spec in E.
Qed.

Lemma filter_nothing {B : Type} (p : B -> bool) (l : list B) :
  (forall x, x ∈ l -> p x = false) -> List.filter p l = [].
Proof.
  induction l as [|y l IH]; simpl; intros Hp; [done|].
  rewrite (Hp y) by by left. apply IH. intros x Hx. apply Hp. by right.
Qed.

(** Where the [while] loop stops on values in ascending order. *)
Lemma skip_passed_sorted (key : A) (values : list A) :
  StronglySorted (not_after key_lt) values ->
  match skip_passed key values with
  | None => forall w, w ∈ values -> key_lt w key = true
  | Some None => values = []
  | Some (Some v) =>
      v ∈ values /\ key_lt v key = false /\
      forall w, w ∈ values -> key_lt w key = true \/ key_lt w v = false
  end.
Proof.
  induction values as [|w0 values IH]; simpl; [done|].
  intros [Hw0 Hs]%StronglySorted_cons.
  rewrite key_gt_lt. destruct (key_lt w0 key) eqn:E.
  - destruct values as [|w1 values].
    + by intros w ->%list_elem_of_singleton.
    + specialize (IH Hs). destruct (skip_passed key (w1 :: values)) as [[v|]|].
      * destruct IH as (Hin & Hv & Hall). split; [by right|]. split; [done|].
        intros w [->|Hw]%elem_of_cons; [by left | by apply Hall].
      * done.
      * intros w [->|Hw]%elem_of_cons; [done | by apply IH].
  - split; [by left|]. split; [done|].
    intros w [->|Hw]%elem_of_cons; right; [apply key_lt_irrefl|].
    rewrite Forall_forall in Hw0. by apply Hw0.
Qed.

(** On entries in ascending key order the merge-join collects exactly
    the entries whose key is asked for, in cursor order. *)
Lemma in_query_complete (values : list A) (entries : list (A * R))
    (target : option A) (results : list R) :
  StronglySorted (fun e1 e2 => key_lt e2.1 e1.1 = false) entries ->
  (forall t e, target = Some t -> e ∈ entries -> key_lt e.1 t = true ->
               e.1 ∉ values) ->
  run_cursor (cursorHandlers_in values) entries target results
  = Some (results ++ (List.filter (asked_for values) entries).*2).
Proof.
  revert target results.
  induction entries as [|[k r] entries IH]; intros target results Hsorted Htgt.
  { simpl. by rewrite app_nil_r. }
  apply StronglySorted_cons in Hsorted as [Hk Hsorted].
  rewrite Forall_forall in Hk.
  cbn [run_cursor].
  destruct (match target with Some t => key_lt k t | None => false end) eqn:Hskip.
  { destruct target as [t|]; [|done].
    cbn [List.filter]. rewrite asked_for_false.
    - apply IH; [done|]. intros t' e [= <-] He. apply Htgt; [done | by right].
    - apply (Htgt t); [done | by left | done]. }
  pose proof (skip_passed_sorted k (array_sort values)) as Hstop.
  rewrite array_sort_by_key_lt in Hstop.
  specialize (Hstop (sort_by_sorted key_lt key_lt_asym key_lt_neg_trans values)).
  unfold cursorHandlers_in at 1. rewrite array_sort_by_key_lt.
  destruct (skip_passed k (sort_by key_lt values)) as [[v|]|] eqn:Hs.
  - destruct Hstop as (Hin & Hvk & Hall).
    destruct (key_strict_eq k v) eqn:He.
    + apply key_strict_eq_spec in He as <-.
      cbn [List.filter].
      rewrite (proj2 (asked_for_spec values (k, r)))
        by (by rewrite sort_by_perm in Hin).
      rewrite IH by done. simpl. by rewrite <- app_assoc.
    + assert (key_lt k v = true) as Hkv.
      { by eapply continue_target_above. }
      rewrite Hkv. cbn [List.filter]. rewrite asked_for_false.
      * apply IH; [done|]. intros t e [= <-] He' Hlt Hwant.
        rewrite <- (sort_by_perm key_lt) in Hwant.
        destruct (Hall _ Hwant) as [Hbelow|Hnot]; [|congruence].
        pose proof (Hk e He') as Hke. simpl in Hke. congruence.
      * simpl. intros Hwant. rewrite <- (sort_by_perm key_lt) in Hwant.
        destruct (Hall _ Hwant) as [Hbelow|Hnot]; [|congruence].
        by rewrite key_lt_irrefl in Hbelow.
  - assert (values = []) as ->.
    { apply Permutation_nil_r. by rewrite <- Hstop, sort_by_perm. }
    rewrite IH by done. done.
  - rewrite filter_nothing; [by rewrite app_nil_r|].
    intros e He'. apply asked_for_false. intros Hwant.
    rewrite <- (sort_by_perm key_lt) in Hwant. specialize (Hstop _ Hwant).
    apply elem_of_cons in He' as [->|He']; simpl in *.
    + by rewrite key_lt_irrefl in Hstop.
    + pose proof (Hk e He') as Hke. simpl in Hke. congruence.
Qed.

End MergeJoinComplete.

(** ** Printing and parsing integers *)

Section Decimal.

Lemma read_digits_printed (d : Decimal.uint) (seen : bool) (acc : Z) :
  JS.read_digits (NilEmpty.string_of_uint d) seen acc
  = match d with
    | Decimal.Nil => if seen then Some acc else None
    | _ => Some (uint_value d acc)
    end.
Proof.
  revert seen acc.
  induction d; intros seen acc; [done|..];
    cbn [NilEmpty.string_of_uint JS.read_digits];
    (etrans; [apply (IHd true)|]); by destruct d.
Qed.

Lemma uint_value_of_lu (d : Decimal.uint) (acc : Z) :
  uint_value d acc
  = Z.of_N (DecimalPos.Unsigned.of_lu (Decimal.rev d))
    + acc * 10 ^ Z.of_N (DecimalPos.Unsigned.usize d).
Proof.
  revert acc.
  induction d; intros acc; [simpl; lia|..];
    cbn [uint_value]; rewrite IHd;
    match goal with
    | |- context [Decimal.rev (?c d)] =>
        change (Decimal.rev (c d)) with (Decimal.revapp d (c Decimal.Nil));
        rewrite (DecimalPos.Unsigned.of_lu_revapp d (c Decimal.Nil))
    end;
    cbn [DecimalPos.Unsigned.usize];
    rewrite N2Z.inj_succ, Z.pow_succ_r by lia;
    rewrite N2Z.inj_add, N2Z.inj_mul, N2Z.inj_pow;
    change (Z.of_N 10) with 10;
    simpl (Z.of_N (DecimalPos.Unsigned.of_lu (_ Decimal.Nil)));
    lia.
Qed.

Lemma uint_value_of_uint (d : Decimal.uint) : uint_value d 0 = Z.of_uint d.
Proof.
  rewrite uint_value_of_lu. unfold Z.of_uint.
  rewrite DecimalPos.Unsigned.of_uint_alt. lia.
Qed.

Lemma every_app p s t : every p s -> every p t -> every p (s +:+ t).
Proof. induction s as [|c s IH]; simpl; [done|]. intros [? ?] ?. split; auto. Qed.

Lemma every_impl (p q : ascii -> bool) s :
  (forall c, p c = true -> q c = true) -> every p s -> every q s.
Proof. intros Hpq. induction s as [|c s IH]; simpl; [done|]. intros [? ?]. split; auto. Qed.

Lemma every_uint (d : Decimal.uint) : every is_digit (NilEmpty.string_of_uint d).
Proof. induction d; simpl; try done; split; done. Qed.

Lemma every_decimal_nonneg (z : Z) : 0 <= z -> every is_digit (JS.decimal z).
Proof.
  intros Hz. unfold JS.decimal. destruct z as [|p|p]; [by vm_compute| |lia].
  cbn [Z.to_int NilZero.string_of_int]. unfold NilZero.string_of_uint.
  pose proof (every_uint (Pos.to_uint p)). by destruct (Pos.to_uint p).
Qed.

Lemma every_decimal (z : Z) :
  every (fun c => is_digit c || Ascii.eqb c "-") (JS.decimal z).
Proof.
  destruct z as [|p|p].
  - by vm_compute.
  - eapply every_impl; [|apply (every_decimal_nonneg (Z.pos p)); lia].
    intros c ->. done.
  - unfold JS.decimal. cbn [Z.to_int NilZero.string_of_int]. split; [done|].
    eapply every_impl; [|apply (every_decimal_nonneg (Z.pos p)); lia].
    intros c ->. done.
Qed.

Lemma every_strip p s : every p s -> every p (JS.strip_trailing_zeros s).
Proof.
  induction s as [|c s IH]; simpl; [done|]. intros [Hc Hs].
  specialize (IH Hs). destruct (JS.strip_trailing_zeros s).
  - destruct (Ascii.eqb c "0"); simpl; done.
  - simpl in *. done.
Qed.

(** Two texts that agree up to a first mark agree on both sides of it. *)
Lemma split_at_mark (m : ascii) (s1 s2 t1 t2 : string) :
  every (fun c => negb (Ascii.eqb c m)) s1 ->
  every (fun c => negb (Ascii.eqb c m)) s2 ->
  s1 +:+ String m t1 = s2 +:+ String m t2 -> s1 = s2 /\ t1 = t2.
Proof.
  revert s2. induction s1 as [|c s1 IH]; intros [|d s2]; simpl.
  - intros _ _ [= ->]. done.
  - intros _ [Hd _] [= <- _]. by rewrite Ascii.eqb_refl in Hd.
  - intros [Hc _] _ [= -> _]. by rewrite Ascii.eqb_refl in Hc.
  - intros [_ H1] [_ H2] [= -> Heq].
    destruct (IH s2 H1 H2 Heq) as [-> ->]. done.
Qed.

Lemma strip_length_inj (s t : string) :
  JS.strip_trailing_zeros s = JS.strip_trailing_zeros t ->
  String.length s = String.length t -> s = t.
Proof.
  revert t. induction s as [|c s IH]; intros [|d t]; simpl; try done.
  intros Hstrip [= Hlen].
  destruct (JS.strip_trailing_zeros s) as [|x rs] eqn:Hs,
           (JS.strip_trailing_zeros t) as [|y rt] eqn:Ht.
  - assert (s = t) as -> by (apply IH; [congruence | done]).
    destruct (Ascii.eqb_spec c "0") as [->|], (Ascii.eqb_spec d "0") as [->|];
      try done. by injection Hstrip as ->.
  - by destruct (Ascii.eqb c "0").
  - by destruct (Ascii.eqb d "0").
  - injection Hstrip as -> Heq.
    assert (s = t) as -> by (apply IH; [congruence | done]). done.
Qed.

(** Reading back the decimal notation of an integer gives the integer. *)
Lemma read_integer_decimal (z : Z) : JS.read_integer (JS.decimal z) = Some z.
Proof.
  unfold JS.decimal.
  assert (Hpos : forall p,
    JS.read_digits (NilEmpty.string_of_uint (Pos.to_uint p)) false 0 = Some (Z.pos p)).
  { intros p. rewrite read_digits_printed, uint_value_of_uint.
    pose proof (DecimalPos.Unsigned.to_uint_nonnil p) as Hn.
    unfold Z.of_uint. rewrite DecimalPos.Unsigned.of_to.
    by destruct (Pos.to_uint p). }
  destruct z as [|p|p]; [done|..]; cbn [Z.to_int NilZero.string_of_int];
    specialize (Hpos p);
    pose proof (DecimalPos.Unsigned.to_uint_nonnil p) as Hn;
    unfold NilZero.string_of_uint, JS.read_integer;
    destruct (Pos.to_uint p); try done;
    cbn [NilEmpty.string_of_uint JS.strip_white_space] in *;
    cbv [JS.is_white_space] ; simpl;
    simpl in Hpos; rewrite Hpos; done.
Qed.

Lemma decimal_inj (a b : Z) : JS.decimal a = JS.decimal b -> a = b.
Proof.
  intros Heq. pose proof (read_integer_decimal a) as Ha.
  rewrite Heq, read_integer_decimal in Ha. congruence.
Qed.

Lemma to_double_safe (z : Z) : safe_integer z -> JS.to_double z = z.
Proof.
  intros Hz. unfold safe_integer in Hz. unfold JS.to_double.
  destruct (Z.ltb_spec (Z.abs z) 9007199254740992); [done | lia].
Qed.

Lemma exponential_marked (z : Z) :
  exists s t,
    JS.exponential z = s +:+ String "e" t /\
    every (fun c => negb (Ascii.eqb c "e")) s.
Proof.
  unfold JS.exponential.
  set (digits := JS.decimal (Z.abs z)).
  set (mantissa := match JS.strip_trailing_zeros digits with
                   | String c EmptyString => String c EmptyString
                   | String c r => String c ("." +:+ r)
                   | EmptyString => EmptyString
                   end).
  exists ((if z <? 0 then "-" else "") +:+ mantissa), ("+" +:+ JS.decimal (Z.of_nat (String.length digits) - 1)).
  split.
  - by destruct (z <? 0).
  - assert (every (fun c => negb (Ascii.eqb c "e")) mantissa) as Hm.
    { assert (every is_digit (JS.strip_trailing_zeros digits)) as Hd
        by (apply every_strip, every_decimal_nonneg; lia).
      subst mantissa. destruct (JS.strip_trailing_zeros digits) as [|c r]; [done|].
      destruct Hd as [Hc Hr].
      assert (every (fun c => negb (Ascii.eqb c "e")) r) as Hr'.
      { eapply every_impl; [|exact Hr]. intros x Hx.
        destruct (Ascii.eqb_spec x "e") as [->|]; done. }
      assert (negb (Ascii.eqb c "e") = true) as Hc'.
      { destruct (Ascii.eqb_spec c "e") as [->|]; done. }
      destruct r; simpl; [done|]. simpl in Hr'. done. }
    destruct (z <? 0); simpl; done.
Qed.

Lemma append_assoc (s t u : string) : (s +:+ t) +:+ u = s +:+ (t +:+ u).
Proof.
  induction s as [|c s IH]; [done|].
  change (String c ((s +:+ t) +:+ u) = String c (s +:+ t +:+ u)). by f_equal.
Qed.

Lemma exponential_inj (a b : Z) : JS.exponential a = JS.exponential b -> a = b.
Proof.
  unfold JS.exponential.
  set (da := JS.decimal (Z.abs a)). set (db := JS.decimal (Z.abs b)).
  assert (every is_digit (JS.strip_trailing_zeros da)) as Ha
    by (apply every_strip, every_decimal_nonneg; lia).
  assert (every is_digit (JS.strip_trailing_zeros db)) as Hb
    by (apply every_strip, every_decimal_nonneg; lia).
  set (ma := match JS.strip_trailing_zeros da with
             | String c EmptyString => String c EmptyString
             | String c r => String c ("." +:+ r)
             | EmptyString => EmptyString
             end).
  set (mb := match JS.strip_trailing_zeros db with
             | String c EmptyString => String c EmptyString
             | String c r => String c ("." +:+ r)
             | EmptyString => EmptyString
             end).
  assert (forall s, every is_digit s ->
    every (fun c => negb (Ascii.eqb c "e") && negb (Ascii.eqb c "-"))
      match s with
      | String c EmptyString => String c EmptyString
      | String c r => String c ("." +:+ r)
      | EmptyString => EmptyString
      end) as Hplain.
  { intros s Hs.
    assert (forall x, is_digit x = true ->
      negb (Ascii.eqb x "e") && negb (Ascii.eqb x "-") = true) as Hx.
    { intros x Hx. destruct (Ascii.eqb_spec x "e") as [->|]; [done|].
      destruct (Ascii.eqb_spec x "-") as [->|]; done. }
    destruct s as [|c r]; [done|]. destruct Hs as [Hc Hr].
    apply (every_impl _ _ _ Hx) in Hr.
    destruct r; simpl; [auto|]. simpl in Hr. split; [auto|]. split; [done|]. done. }
  pose proof (Hplain _ Ha) as Hma. pose proof (Hplain _ Hb) as Hmb.
  fold ma in Hma. fold mb in Hmb.
  assert (forall (x : Z) m,
    every (fun c => negb (Ascii.eqb c "e") && negb (Ascii.eqb c "-")) m ->
    every (fun c => negb (Ascii.eqb c "e")) ((if x <? 0 then "-" else "") +:+ m)) as Hfree.
  { intros x m Hm. apply every_app; [by destruct (x <? 0)|].
    eapply every_impl; [|exact Hm]. by intros c [? _]%andb_prop. }
  intros Heq.
  change ("e+" +:+ ?x) with (String "e" ("+" +:+ x)) in Heq.
  rewrite <- !(append_assoc _ _ (String "e" _)) in Heq.
  apply split_at_mark in Heq as [Hleft Hright]; [|by apply Hfree..].
  injection Hright as Hlen%decimal_inj.
  assert ((a <? 0) = (b <? 0) /\ ma = mb) as [Hsign Hm].
  { destruct (a <? 0), (b <? 0); try done.
    - change (String "-" ma = String "-" mb) in Hleft. by injection Hleft as ->.
    - change (String "-" ma = mb) in Hleft. rewrite <- Hleft in Hmb.
      by destruct Hmb as [Hc _].
    - change (ma = String "-" mb) in Hleft. rewrite Hleft in Hma.
      by destruct Hma as [Hc _]. }
  assert (JS.strip_trailing_zeros da = JS.strip_trailing_zeros db) as Hstrip.
  { subst ma mb.
    destruct (JS.strip_trailing_zeros da) as [|c [|c' r]],
             (JS.strip_trailing_zeros db) as [|d [|d' r']]; try done.
    simpl in Hm. by injection Hm as -> -> ->. }
  assert (da = db) as Hd by (apply strip_length_inj; [done | lia]).
  apply decimal_inj in Hd.
  destruct (Z.ltb_spec a 0), (Z.ltb_spec b 0); try done; lia.
Qed.

Lemma number_to_string_inj (a b : Z) :
  JS.number_to_string (JS.Int a) = JS.number_to_string (JS.Int b) -> a = b.
Proof.
  unfold JS.number_to_string.
  assert (forall x y, JS.decimal x = JS.exponential y -> False) as Hmix.
  { intros x y Heq. pose proof (every_decimal x) as Hx. rewrite Heq in Hx.
    destruct (exponential_marked y) as (s & t & Hy & _). rewrite Hy in Hx.
    clear Heq Hy. induction s as [|c s IH]; simpl in Hx; [by destruct Hx|].
    destruct Hx as [_ Hx]. auto. }
  destruct (Z.abs a <? _), (Z.abs b <? _); intros Heq.
  - by apply decimal_inj.
  - by apply Hmix in Heq.
  - symmetry in Heq. by apply Hmix in Heq.
  - by apply exponential_inj.
Qed.


(** [parseInt] reads back the safe integer that [toString] printed. *)
Lemma parseInt_printed (z : Z) :
  safe_integer z -> JS.parseInt (JS.Num (JS.Int z)) = JS.Int z.
Proof.
  intros Hz. unfold JS.parseInt, JS.parse_int_string.
  cbn [JS.to_string JS.number_to_string].
  destruct (Z.ltb_spec (Z.abs z) 1000000000000000000000) as [_|Hbig];
    [|unfold safe_integer in Hz; lia].
  by rewrite read_integer_decimal, to_double_safe.
Qed.
End Decimal.

(** ** The two kinds of keys *)

Lemma string_compare_refl (a : string) : String.compare a a = Eq.
Proof.
  induction a as [|c a IH]; simpl; [done|].
  unfold Ascii.compare. by rewrite N.compare_refl.
Qed.

Lemma string_compare_lt_trans (a b c : string) :
  String.compare a b = Lt -> String.compare b c = Lt -> String.compare a c = Lt.
Proof.
  revert b c. induction a as [|x a IH]; intros [|y b] [|z c]; simpl; try done.
  unfold Ascii.compare.
  destruct (N.compare_spec (N_of_ascii x) (N_of_ascii y)) as [Exy|Lxy|Gxy];
    destruct (N.compare_spec (N_of_ascii y) (N_of_ascii z)) as [Eyz|Lyz|Gyz];
    try done; intros Hab Hbc.
  - rewrite Exy, Eyz, N.compare_refl. by eapply IH.
  - rewrite Exy. by apply N.compare_lt_iff in Lyz as ->.
  - rewrite <- Eyz. by apply N.compare_lt_iff in Lxy as ->.
  - assert (N_of_ascii x < N_of_ascii z)%N as Hxz by lia.
    by apply N.compare_lt_iff in Hxz as ->.
Qed.

#[export] Instance string_key_laws : KeyLaws string.
Proof.
  split; simpl.
  - apply String.eqb_eq.
  - done.
  - intros a. unfold String.ltb. by rewrite string_compare_refl.
  - unfold String.ltb. intros a b c Hab Hbc.
    destruct (String.compare a b) eqn:Eab; try done.
    destruct (String.compare b c) eqn:Ebc; try done.
    by rewrite (string_compare_lt_trans a b c).
  - unfold String.ltb. intros a b Hab Hba.
    apply String.compare_eq_iff.
    rewrite (String.compare_antisym b a) in Hba.
    by destruct (String.compare a b).
  - done.
Qed.

#[export] Instance string_sort_agrees : SortAgrees string.
Proof. done. Qed.

#[export] Instance number_key_laws : KeyLaws Z.
Proof.
  split; simpl.
  - apply Z.eqb_eq.
  - done.
  - apply Z.ltb_irrefl.
  - intros a b c. rewrite !Z.ltb_lt. lia.
  - intros a b. rewrite !Z.ltb_ge. lia.
  - apply number_to_string_inj.
Qed.

(** ** IN queries over the [id] index *)

Lemma filter_perm {B : Type} (p : B -> bool) (l l' : list B) :
  l ≡ₚ l' -> List.filter p l ≡ₚ List.filter p l'.
Proof.
  induction 1 as [|x l l' _ IH|x y l|l l' l'' _ IH1 _ IH2]; simpl.
  - done.
  - destruct (p x); [by constructor | done].
  - destruct (p x), (p y); try done. apply Permutation_swap.
  - by etrans.
Qed.

Section IdIndex.
Context {K : Type} `{KeyLaws K}.

Lemma index_entries_sorted {A : Type} `{KeyLaws A} (path : record K -> option A)
    (store : list (record K)) :
  StronglySorted (fun e1 e2 => key_lt e2.1 e1.1 = false) (index_entries path store).
Proof.
  unfold index_entries.
  apply (sort_by_sorted (fun a b : A * record K => key_lt a.1 b.1)).
  - intros a b. apply key_lt_asym.
  - intros a b c. apply key_lt_neg_trans.
Qed.

Lemma id_index_entries_perm (store : list (record K)) :
  index_entries by_primary_key store ≡ₚ (fun r => (id r, r)) <$> store.
Proof.
  unfold index_entries, primary_order. rewrite sort_by_perm.
  rewrite (sort_by_perm _ store).
  induction store as [|r store IH]; simpl; [done|]. by constructor.
Qed.

Lemma with_id_in_spec (values : list K) (store : list (record K)) (r : record K) :
  r ∈ with_id_in values store <-> r ∈ store /\ id r ∈ values.
Proof.
  unfold with_id_in. rewrite !list_elem_of_In, filter_In, existsb_exists.
  split; intros [Hr Hv]; (split; [done|]).
  - by destruct Hv as (v & Hin & ->%key_strict_eq_spec).
  - exists (id r). split; [done|].
    by apply (proj2 (key_strict_eq_spec (id r) (id r))).
Qed.

Lemma asked_entries_records (values : list K) (store : list (record K)) :
  (List.filter (asked_for values) ((fun r => (id r, r)) <$> store)).*2
  = with_id_in values store.
Proof.
  unfold with_id_in, asked_for.
  induction store as [|r store IH]; simpl; [done|].
  destruct (existsb (key_strict_eq (id r)) values); simpl;
    [f_equal|]; exact IH.
Qed.

(** When [sort()] sorts keys by the key order, as it does strings, the IN
    query over the [id] index delivers the records whose id is asked
    for. *)
Lemma id_in_query_exact `{!SortAgrees K} (values : list K) (store : list (record K)) :
  exists records,
    IDB.query_index by_primary_key (Many values) store = Some records /\
    records ≡ₚ with_id_in values store.
Proof.
  unfold IDB.query_index.
  rewrite in_query_complete; [|apply index_entries_sorted | done].
  eexists; split; [done|]. simpl.
  rewrite <- asked_entries_records.
  apply fmap_Permutation, filter_perm, id_index_entries_perm.
Qed.

End IdIndex.

Section ListById.
Context {K : Type} `{KeyLaws K}.

Lemma list_id_in_working reduceRecords (values : list K) order (s : adapter K) :
  working s ->
  exists s1,
    IDB.list_ reduceRecords [OnId (Many values)] order s
    = (match IDB.query_index by_primary_key (Many values) (collection s) with
       | Some records => JS.Resolved (reduceRecords [] order records)
       | None => JS.Pending
       end, s1) /\
    collection s1 = collection s /\ metadata s1 = metadata s.
Proof.
  intros Hw. unfold IDB.list_, IDB.catch_, IDB.then_, IDB.resolve.
  destruct (working_open s Hw) as [-> Hw1].
  destruct (working_next_fault _ Hw1) as (s2 & -> & Hw2 & _ & Hc & Hm).
  cbn [IDB.findIndexedField]. simpl (IDB.createListRequest _ _ _).
  rewrite Hc. change (collection (IDB.set_db true s)) with (collection s).
  change (fun r : record K => Some (id r)) with (@by_primary_key K).
  exists s2.
  split; [|by destruct s].
  unfold IDB.query_index.
  by destruct (run_cursor _ _ _ _).
Qed.

Lemma with_id_in_perm (values values' : list K) (store : list (record K)) :
  values ≡ₚ values' -> with_id_in values store = with_id_in values' store.
Proof.
  intros Hp. unfold with_id_in. apply filter_ext. intros r.
  apply eq_true_iff_eq. rewrite !existsb_exists.
  split; intros (v & Hin & Hv); exists v; (split; [|done]);
    apply list_elem_of_In; apply list_elem_of_In in Hin;
    [by rewrite <- Hp | by rewrite Hp].
Qed.

(** X1: with ids that [sort()] sorts in key order, as it does strings,
    [list({filters: {id: values}})] resolves with exactly the records of
    the store whose id is in [values], whatever the order of [values]. *)
Theorem list_id_in_sorted_keys `{!SortAgrees K} reduceRecords
    (values : list K) order (s : adapter K) :
  reduces reduceRecords ->
  working s ->
  exists rs s1,
    IDB.list_ reduceRecords [OnId (Many values)] order s = (JS.Resolved rs, s1) /\
    rs ≡ₚ with_id_in values (collection s) /\
    (forall r, r ∈ rs <-> r ∈ collection s /\ id r ∈ values) /\
    (forall values', values' ≡ₚ values ->
       exists rs' s1',
         IDB.list_ reduceRecords [OnId (Many values')] order s = (JS.Resolved rs', s1') /\
         rs' ≡ₚ rs).
Proof.
  intros Hred Hw.
  assert (Hlist : forall vs, exists rs s1,
    IDB.list_ reduceRecords [OnId (Many vs)] order s = (JS.Resolved rs, s1) /\
    rs ≡ₚ with_id_in vs (collection s)).
  { intros vs.
    destruct (list_id_in_working reduceRecords vs order s Hw) as (s1 & -> & _).
    destruct (id_in_query_exact vs (collection s)) as (records & -> & Hp).
    eexists _, s1. split; [done|]. by rewrite (Hred order records). }
  destruct (Hlist values) as (rs & s1 & Hrun & Hp).
  exists rs, s1. split; [done|]. split; [done|]. split.
  - intros r. rewrite Hp. apply with_id_in_spec.
  - intros values' Hv.
    destruct (Hlist values') as (rs' & s1' & Hrun' & Hp').
    exists rs', s1'. split; [done|].
    by rewrite Hp, Hp', (with_id_in_perm values' values).
Qed.

End ListById.

(** C1, for records with ids 9 and 10: [[9, 10].sort()] is [[10, 9]], the
    cursor is sent from key 9 straight to key 10, and [list] with the
    filter [{id: [9, 10]}] resolves without the record of id 9, which is
    in the store. *)
Theorem list_id_in_numbers_misses
    (reduceRecords : list (criterion Z) -> option string ->
                     list (record Z) -> list (record Z)) order :
  reduces reduceRecords ->
  let nine := Record_ 9 None None [] in
  let ten := Record_ 10 None None [] in
  let s := Adapter false [nine; ten] ∅ None [] in
  array_sort [9; 10] = [10; 9] /\
  exists rs,
    (IDB.list_ reduceRecords [OnId (Many [9; 10])] order s).1 = JS.Resolved rs /\
    rs = [ten] /\ (nine ∉ rs) /\ (nine ∈ collection s) /\ (id nine ∈ [9; 10]).
Proof.
  intros Hred nine ten s. split; [by vm_compute|].
  assert (working s) as Hw by (split; [by right | constructor]).
  destruct (list_id_in_working reduceRecords [9; 10] order s Hw) as (s1 & -> & _).
  assert (IDB.query_index by_primary_key (Many [9; 10]) (collection s) = Some [ten])
    as -> by by vm_compute.
  pose proof (Hred order [ten]) as Hp. apply Permutation_singleton_r in Hp.
  exists [ten]. simpl. rewrite Hp. repeat split; try done.
  - intros [[=]|Hin%elem_of_nil]%elem_of_cons. done.
  - by left.
  - by left.
Qed.

Lemma list_id_in_numbers_misses_witness :
  reduces (K := Z) (fun _ _ records => records) /\
  exists rs,
    (IDB.list_ (fun _ _ records => records) [OnId (Many [9; 10])] None
       (Adapter false [Record_ 9 None None []; Record_ 10 None None []] ∅ None [])).1
    = JS.Resolved rs /\ rs = [Record_ 10 None None []].
Proof.
  assert (reduces (K := Z) (fun _ _ records => records)) as Hred
    by (intros order records; reflexivity).
  split; [exact Hred|].
  destruct (list_id_in_numbers_misses (fun _ _ records => records) None Hred)
    as (_ & rs & Hrs & Heq & _).
  exists rs. split; [exact Hrs | exact Heq].
Defined.

(** ** The transaction executor *)

Section Executor.
Context {K : Type} `{KeyLaws K}.

Lemma transactionProxy_answered (preloaded other : IDB.preloaded_object)
    (callback : batch K) :
  IDB.transactionProxy other (answer_gets preloaded callback)
  = IDB.transactionProxy preloaded callback.
Proof.
  induction callback as [v|t|r next IH|r next IH|key next IH|key next IH]; simpl;
    try done; by rewrite IH.
Qed.

Lemma preload_query_runs (preload : list K) (store : list (record K)) :
  exists records,
    IDB.query_index by_primary_key (Many preload) store = Some records.
Proof. apply in_query_total. Qed.

(** [execute] once the connection is there. *)
Lemma execute_connected (callback : batch K) (preload : list K) (s : adapter K) :
  connects s ->
  IDB.execute callback preload s =
  let '(fault, s1) := IDB.next_fault (IDB.set_db true s) in
  match IDB.transactionProxy (preloaded_for preload s) callback with
  | (_, Threw e) => (JS.Rejected e, s1)
  | (queued, Returned APromise) =>
      (JS.Rejected (JS.ThrownError
         (JS.new_Error "execute() callback should not return a Promise.")),
       match run_requests queued (collection s1), fault with
       | Some c, None => IDB.set_collection c s1
       | _, _ => s1
       end)
  | (queued, Returned (Value v)) =>
      match run_requests queued (collection s1), fault with
      | None, _ => (JS.Rejected (IDB.wrapped constraint_error), s1)
      | Some _, Some (Failing e) => (JS.Rejected (IDB.wrapped e), s1)
      | Some _, Some Aborting => (JS.Pending, s1)
      | Some c, None => (JS.Resolved v, IDB.set_collection c s1)
      end
  end.
Proof.
  intros Hc. unfold IDB.execute, IDB.then_. rewrite (connects_open s Hc).
  assert (collection (IDB.next_fault (IDB.set_db true s)).2 = collection s) as Hcol.
  { destruct s as [db c m oe [|f fs]]; done. }
  destruct (IDB.next_fault (IDB.set_db true s)) as [fault s1]. simpl in Hcol.
  unfold preloaded_for. rewrite Hcol.
  change (fun r : record K => Some (id r)) with (@by_primary_key K).
  by destruct (preload_query_runs preload (collection s)) as (records & ->).
Qed.

Lemma next_fault_keeps (s : adapter K) :
  collection (IDB.next_fault s).2 = collection s /\
  metadata (IDB.next_fault s).2 = metadata s /\
  (connects s -> connects (IDB.next_fault s).2) /\
  (working s -> working (IDB.next_fault s).2 /\ (IDB.next_fault s).1 = None).
Proof.
  destruct s as [db c m oe [|f fs]]; simpl;
    (split; [done|]); (split; [done|]); (split; [done|]);
    intros [Hc Hf]; simpl in Hf; [done|].
  inversion Hf; subst. by repeat split.
Qed.

(** What [get] and [list] resolve with depends on the collection only. *)
Lemma get_working (key : K) (s : adapter K) :
  working s ->
  (IDB.get key s).1 = JS.Resolved (store_get key (collection s)).
Proof.
  intros Hw. unfold IDB.get, IDB.catch_, IDB.then_, IDB.transaction.
  destruct (working_open s Hw) as [-> Hw1].
  destruct (working_next_fault _ Hw1) as (s2 & -> & Hw2 & _ & Hc & Hm).
  simpl. by rewrite Hc.
Qed.

Lemma list_working reduceRecords filters order (s : adapter K) :
  working s ->
  (IDB.list_ reduceRecords filters order s).1
  = listed reduceRecords filters order (collection s).
Proof.
  intros Hw. unfold IDB.list_, IDB.catch_, IDB.then_, IDB.resolve, listed.
  destruct (working_open s Hw) as [-> Hw1].
  destruct (working_next_fault _ Hw1) as (s2 & -> & Hw2 & _ & Hc & Hm).
  rewrite Hc. change (collection (IDB.set_db true s)) with (collection s).
  by destruct (IDB.createListRequest _ _ _).
Qed.

(** C4: when the callback throws, whatever it created, updated or
    deleted before, [execute] rejects with what was thrown and the stores
    are as they were: a [get] or a [list] that follows resolves with what
    it would have resolved with before. *)
Theorem execute_throw_leaves_stores (callback : batch K) (preload : list K)
    (s : adapter K) (e : JS.thrown) :
  connects s ->
  (IDB.transactionProxy (preloaded_for preload s) callback).2 = Threw e ->
  exists s1,
    IDB.execute callback preload s = (JS.Rejected e, s1) /\
    collection s1 = collection s /\
    metadata s1 = metadata s /\
    (working s ->
     (forall key, (IDB.get key s1).1 = (IDB.get key s).1) /\
     (forall reduceRecords filters order,
        (IDB.list_ reduceRecords filters order s1).1
        = (IDB.list_ reduceRecords filters order s).1)).
Proof.
  intros Hc Hthrow. rewrite (execute_connected callback preload s Hc).
  destruct (next_fault_keeps (IDB.set_db true s)) as (Hcol & Hmeta & _ & Hwork).
  destruct (IDB.next_fault (IDB.set_db true s)) as [fault s1]. simpl in *.
  destruct (IDB.transactionProxy (preloaded_for preload s) callback) as [queued ending].
  simpl in Hthrow. subst ending.
  exists s1. split; [done|]. split; [by destruct s|]. split; [by destruct s|].
  intros Hw.
  assert (working s1) as Hw1.
  { apply Hwork. by apply working_open in Hw as [_ ?]. }
  assert (collection s1 = collection s) as Hsame by by destruct s.
  split.
  - intros key. by rewrite !get_working, Hsame.
  - intros reduceRecords filters order. by rewrite !list_working, Hsame.
Qed.

(** C7, as the code has it: when the callback returns a Promise,
    [execute] rejects with an Error whose message is ["execute() callback
    should not return a Promise."]. *)
Theorem execute_promise_rejected (callback : batch K) (preload : list K)
    (s : adapter K) :
  connects s ->
  (IDB.transactionProxy (preloaded_for preload s) callback).2 = Returned APromise ->
  (IDB.execute callback preload s).1
  = JS.Rejected (JS.ThrownError
      (JS.Error "Error" "execute() callback should not return a Promise.")).
Proof.
  intros Hc Hret. rewrite (execute_connected callback preload s Hc).
  destruct (IDB.next_fault (IDB.set_db true s)) as [fault s1].
  destruct (IDB.transactionProxy (preloaded_for preload s) callback) as [queued ending].
  simpl in Hret. by subst ending.
Qed.

(** The requests keep one record per id in the store. *)
Lemma store_delete_ids (key : K) (store : list (record K)) :
  NoDup (id <$> store) ->
  NoDup (id <$> store_delete key store) /\ key ∉ id <$> store_delete key store.
Proof.
  unfold store_delete. induction store as [|r store IH]; simpl.
  - split; [done | apply not_elem_of_nil].
  - rewrite NoDup_cons. intros [Hfresh Hnd]. destruct (IH Hnd) as [IH1 IH2].
    destruct (same_key (id r) key) eqn:Hsame; simpl; [done|].
    rewrite NoDup_cons. split; [split; [|done] | ].
    + intros (r' & Heq & Hin%list_elem_of_In)%list_elem_of_fmap.
      apply filter_In in Hin as [Hin%list_elem_of_In _].
      apply Hfresh. rewrite Heq. by apply list_elem_of_fmap_2.
    + intros [Heq|Hin]%elem_of_cons; [|done].
      subst key. by rewrite (proj2 (same_key_eq (id r) (id r)) eq_refl) in Hsame.
Qed.

Lemma run_request_ids (q : request K) (store store' : list (record K)) :
  NoDup (id <$> store) -> run_request q store = Some store' ->
  NoDup (id <$> store').
Proof.
  intros Hnd. destruct q as [r|r|key]; simpl.
  - unfold store_add, store_get.
    destruct (List.find _ store) as [r'|] eqn:Hfind; [done|]. intros [= <-].
    rewrite fmap_app. apply NoDup_app. split; [done|]. split; [|apply NoDup_singleton].
    intros k (r' & -> & Hin%list_elem_of_In)%list_elem_of_fmap
      Heq%list_elem_of_singleton.
    pose proof (find_none _ _ Hfind r' Hin) as Hno. simpl in Hno.
    by rewrite (proj2 (same_key_eq (id r') (id r)) Heq) in Hno.
  - intros [= <-]. unfold store_put.
    destruct (store_delete_ids (id r) store Hnd) as [Hnd' Hfresh].
    rewrite fmap_app. apply NoDup_app. split; [done|]. split; [|apply NoDup_singleton].
    intros k Hk ->%list_elem_of_singleton. done.
  - intros [= <-]. by apply store_delete_ids.
Qed.

Lemma run_requests_ids (qs : list (request K)) (store store' : list (record K)) :
  NoDup (id <$> store) -> run_requests qs store = Some store' ->
  NoDup (id <$> store').
Proof.
  revert store. induction qs as [|q qs IH]; intros store Hnd; simpl.
  - by intros [= <-].
  - destruct (run_request q store) as [store1|] eqn:Hq; [|done].
    apply IH. by eapply run_request_ids.
Qed.










(** [execute] runs the callback as if every [get] had been answered
    beforehand from the object of preloaded records, whatever the
    callback creates, updates or deletes before it: a [get] reads nothing
    from the store. *)
Lemma execute_answers_gets (callback : batch K) (preload : list K) (s : adapter K) :
  IDB.execute callback preload s
  = IDB.execute (answer_gets (preloaded_for preload s) callback) preload s.
Proof.
  unfold IDB.execute, IDB.then_.
  assert (collection (IDB.open s).2 = collection s) as Hopen.
  { unfold IDB.open. destruct s as [[] c m [e|] fs]; done. }
  destruct (IDB.open s) as [[[]|t|] s0]; try done. simpl in Hopen.
  destruct (next_fault_keeps s0) as (Hcol & _).
  destruct (IDB.next_fault s0) as [fault s1]. simpl in Hcol.
  unfold preloaded_for. rewrite Hcol, Hopen.
  change (fun r : record K => Some (id r)) with (@by_primary_key K).
  destruct (IDB.query_index by_primary_key (Many preload) (collection s))
    as [records|]; [|done].
  simpl. by rewrite transactionProxy_answered.
Qed.

End Executor.

(** ** The properties on a store of two records *)

Lemma two_records_working : working two_records.
Proof. split; [right; reflexivity | constructor]. Defined.



Lemma lastModified_zero_is_null_witness :
  working two_records /\
  exists s1,
    IDB.saveLastModified (JS.Num (JS.Int 0)) two_records = (JS.Resolved None, s1) /\
    metadata s1 !! "lastModified"%string = Some None.
Proof.
  split; [exact two_records_working|].
  exact (proj1 (lastModified_zero_is_null two_records two_records_working)).
Defined.

Lemma clear_empties_collection_only_witness :
  reduces (K := string) (fun _ _ records => records) /\
  working two_records /\
  exists s1,
    IDB.clear two_records = (JS.Resolved tt, s1) /\
    collection s1 = [] /\
    metadata s1 = metadata two_records /\
    (forall order,
       (IDB.list_ (fun _ _ records => records) [] order s1).1 = JS.Resolved []) /\
    (IDB.getLastModified s1).1 = (IDB.getLastModified two_records).1.
Proof.
  assert (reduces (K := string) (fun _ _ records => records)) as Hred
    by (intros order records; reflexivity).
  split; [exact Hred|]. split; [exact two_records_working|].
  exact (clear_empties_collection_only _ two_records Hred two_records_working).
Defined.

Lemma execute_throw_leaves_stores_witness :
  connects two_records /\
  (IDB.transactionProxy (preloaded_for [] two_records) throwing).2
    = Threw (JS.ThrownValue (JS.Str "boom")) /\
  exists s1,
    IDB.execute throwing [] two_records
      = (JS.Rejected (JS.ThrownValue (JS.Str "boom")), s1) /\
    collection s1 = [alpha; beta].
Proof.
  assert (connects two_records) as Hc by (right; reflexivity).
  assert ((IDB.transactionProxy (preloaded_for [] two_records) throwing).2
          = Threw (JS.ThrownValue (JS.Str "boom"))) as Ht by reflexivity.
  split; [exact Hc|]. split; [exact Ht|].
  destruct (execute_throw_leaves_stores throwing [] two_records _ Hc Ht)
    as (s1 & Hrun & Hcol & _).
  exists s1. split; [exact Hrun | exact Hcol].
Defined.

Lemma execute_promise_rejected_witness :
  connects two_records /\
  (IDB.transactionProxy (preloaded_for [] two_records) deferred).2 = Returned APromise /\
  (IDB.execute deferred [] two_records).1
  = JS.Rejected (JS.ThrownError
      (JS.Error "Error" "execute() callback should not return a Promise.")).
Proof.
  assert (connects two_records) as Hc by (right; reflexivity).
  split; [exact Hc|]. split; [reflexivity|].
  exact (execute_promise_rejected deferred [] two_records Hc eq_refl).
Defined.

(** C7 as stated fails: the error [execute] rejects with does not carry
    the message ["execute() callback should not return a pending value"],
    and the record the callback created is in the store afterwards. *)
Lemma execute_promise_other_message :
  (~ exists e,
       (IDB.execute deferred [] two_records).1 = JS.Rejected (JS.ThrownError e) /\
       JS.message e = "execute() callback should not return a pending value"%string) /\
  collection (IDB.execute deferred [] two_records).2
  = [alpha; beta; Record_ "c"%string None None []].
Proof.
  split; [|by vm_compute].
  intros (e & He & Hm). vm_compute in He. injection He as <-. done.
Qed.

(** C5, where the code departs from it.  The preloaded records are kept
    in a plain object: with nothing preloaded and no record of that id in
    the store, [get("constructor")] returns what every object inherits
    under that name from [Object.prototype], not undefined.  And with the
    numeric ids 9 and 10 both preloaded and stored, [get(9)] returns
    undefined: the IN query that preloads has missed the record, as in
    C1.  Elsewhere the claim holds: [get("b")] is undefined for a stored
    id left out of [preload], and [get("a")] returns the record as it was
    before the callback updated it. *)
Theorem proxy_get_beyond_preloaded :
  let nine := Record_ 9 None None [] in
  let ten := Record_ 10 None None [] in
  let s := Adapter false [nine; ten] ∅ None [] in
  (store_get "constructor"%string (collection two_records) = None /\
   IDB.get_property (preloaded_for [] two_records) "constructor"
   = Builtin "constructor" /\
   (IDB.execute (probing "constructor"%string) [] two_records).1
   = JS.Resolved (JS.Str "defined")) /\
  (store_get 9 (collection s) = Some nine /\
   IDB.get_property (preloaded_for [9; 10] s) (key_to_string 9) = NoProperty /\
   IDB.get_property (preloaded_for [9; 10] s) (key_to_string 10) = ARecord ten /\
   (IDB.execute (probing 9) [9; 10] s).1 = JS.Resolved (JS.Str "undefined")) /\
  (store_get "b"%string (collection two_records) = Some beta /\
   (IDB.execute (probing "b"%string) ["a"%string] two_records).1
   = JS.Resolved (JS.Str "undefined") /\
   (IDB.execute reading ["a"%string] two_records).1 = JS.Resolved (JS.Str "foo")).
Proof. intros nine ten s. repeat split; by vm_compute. Qed.


(** ** The high-water mark of [loadDump] *)

Section LoadDump.
Context {K : Type} `{Key K}.

Lemma open_metadata (s : adapter K) :
  metadata (IDB.open s).2 = metadata s /\ collection (IDB.open s).2 = collection s.
Proof. unfold IDB.open. by destruct s as [[] c m [e|] fs]. Qed.

Lemma next_fault_metadata (s : adapter K) :
  metadata (IDB.next_fault s).2 = metadata s.
Proof. by destruct s as [db c m oe [|f fs]]. Qed.

(** [execute] writes to the collection store only. *)
Lemma execute_metadata (callback : batch K) (preload : list K) (s : adapter K) :
  metadata (IDB.execute callback preload s).2 = metadata s.
Proof.
  unfold IDB.execute, IDB.then_.
  destruct (open_metadata s) as [Hm _].
  destruct (IDB.open s) as [[[]|t|] s0]; try done. simpl in Hm.
  pose proof (next_fault_metadata s0) as Hm1.
  destruct (IDB.next_fault s0) as [fault s1]. simpl in Hm1.
  rewrite <- Hm, <- Hm1.
  destruct (IDB.query_index _ _ _) as [records|]; [|done].
  destruct (IDB.transactionProxy _ _) as [queued [[v|]|e]]; try done.
  - by destruct (run_requests queued (collection s1)), fault as [[e|]|].
  - simpl. by destruct (run_requests queued (collection s1)), fault as [[e|]|].
Qed.

(** [getLastModified] writes nothing, and resolves with what is stored. *)
Lemma getLastModified_reads (s : adapter K) :
  metadata (IDB.getLastModified s).2 = metadata s /\
  forall v, (IDB.getLastModified s).1 = JS.Resolved v ->
            v = stored_lastModified (metadata s).
Proof.
  unfold IDB.getLastModified, IDB.then_, IDB.transaction.
  destruct (open_metadata s) as [Hm _].
  destruct (IDB.open s) as [[[]|t|] s0]; try done. simpl in Hm.
  pose proof (next_fault_metadata s0) as Hm1.
  destruct (IDB.next_fault s0) as [[[e|]|] s1]; simpl in *; rewrite <- Hm, <- Hm1.
  - done.
  - done.
  - split; [done|]. by intros v [= <-].
Qed.

(** [saveLastModified] writes the ["lastModified"] entry, or nothing. *)
Lemma saveLastModified_writes (v : JS.value) (s : adapter K) :
  metadata (IDB.saveLastModified v s).2 = metadata s \/
  metadata (IDB.saveLastModified v s).2
  = <["lastModified"%string := IDB.or_null (JS.parseInt v)]> (metadata s).
Proof.
  unfold IDB.saveLastModified, IDB.then_, IDB.transaction.
  destruct (open_metadata s) as [Hm _].
  destruct (IDB.open s) as [[[]|t|] s0]; simpl in Hm; [|by left..].
  pose proof (next_fault_metadata s0) as Hm1.
  destruct (IDB.next_fault s0) as [[[e|]|] s1]; simpl in *; rewrite <- Hm, <- Hm1.
  - by left.
  - by left.
  - right. by destruct s1.
Qed.

Lemma loadDump_metadata (records : list (record K)) (s : adapter K) :
  metadata (IDB.loadDump records s).2 = metadata s \/
  (JS.number_gt (dump_maximum records)
     (JS.null_or_number_to_number (stored_lastModified (metadata s))) = true /\
   metadata (IDB.loadDump records s).2
   = <["lastModified"%string := IDB.or_null (JS.parseInt (JS.Num (dump_maximum records)))]>
       (metadata s)).
Proof.
  remember (metadata (IDB.loadDump records s).2) as after eqn:Hafter.
  unfold IDB.loadDump, IDB.catch_ in Hafter. unfold IDB.then_ at 1 2 3 in Hafter.
  pose proof (execute_metadata
    (foldr Update (Return (Value JS.Undefined)) records) [] s) as He.
  destruct (IDB.execute _ [] s) as [[u|t|] s1]; simpl in He.
  2:{ left. subst after. by destruct t as [e|[| |n|str]]. }
  2:{ left. by subst after. }
  destruct (getLastModified_reads s1) as [Hg Hv].
  destruct (IDB.getLastModified s1) as [[previous|t|] s2]; simpl in Hg.
  2:{ left. rewrite <- He, <- Hg. subst after. by destruct t as [e|[| |n|str]]. }
  2:{ left. subst after. by rewrite <- He, <- Hg. }
  rewrite (Hv previous eq_refl), He in Hafter.
  fold (dump_maximum records) in Hafter.
  destruct (JS.number_gt (dump_maximum records) _) eqn:Hgt.
  2:{ left. subst after. simpl. by rewrite Hg. }
  unfold IDB.then_ in Hafter.
  pose proof (saveLastModified_writes (JS.Num (dump_maximum records)) s2) as Hs.
  rewrite Hg, He in Hs.
  destruct (IDB.saveLastModified _ s2) as [[saved|t|] s3]; simpl in *.
  - subst after. destruct Hs as [Hs|Hs]; [by left | by right].
  - subst after. destruct Hs as [Hs|Hs]; [left | right];
      by destruct t as [e|[| |n|str]].
  - subst after. destruct Hs as [Hs|Hs]; [by left | by right].
Qed.

Lemma number_gt_asym (a b : JS.number) :
  JS.number_gt a b = true -> JS.number_gt b a = false.
Proof. destruct a as [x| | |], b as [y| | |]; simpl; try done. lia. Qed.

Lemma number_gt_irrefl (a : JS.number) : JS.number_gt a a = false.
Proof. destruct a as [x| | |]; simpl; try done. lia. Qed.

(** The maximum of a dump is an integer, NaN or -Infinity. *)
Lemma dump_maximum_shape (records : list (record K)) :
  dump_maximum records <> JS.PosInf.
Proof.
  unfold dump_maximum, JS.math_max.
  assert (forall acc, acc <> JS.PosInf ->
    foldl JS.max2 acc (IDB.last_modified_number <$> records) <> JS.PosInf) as Hgen.
  { induction records as [|r records IH]; intros acc Hacc; simpl; [done|].
    apply IH. unfold IDB.last_modified_number.
    destruct (last_modified r) as [z|], acc as [x| | |]; simpl; try done.
    by destruct (x <? z). }
  by apply Hgen.
Qed.

Lemma dump_maximum_below (records : list (record K)) (bound : JS.number) :
  Forall (fun r => exists z, last_modified r = Some z /\
                             JS.number_gt (JS.Int z) bound = false) records ->
  JS.number_gt (dump_maximum records) bound = false.
Proof.
  unfold dump_maximum, JS.math_max. intros Hall.
  assert (forall acc, JS.number_gt acc bound = false ->
    JS.number_gt (foldl JS.max2 acc (IDB.last_modified_number <$> records)) bound
    = false) as Hgen.
  { induction Hall as [|r records (z & Hz & Hle) _ IH]; intros acc Hacc; simpl; [done|].
    apply IH. unfold IDB.last_modified_number. rewrite Hz.
    destruct acc as [x| | |]; simpl; try done.
    by destruct (x <? z). }
  apply Hgen. by destruct bound.
Qed.

(** The maximum of a dump of safe integers is one of them. *)
Lemma dump_maximum_safe (records : list (record K)) (z : Z) :
  safe_dump records -> dump_maximum records = JS.Int z -> safe_integer z.
Proof.
  unfold dump_maximum, JS.math_max. intros Hall.
  assert (forall acc, (forall x, acc = JS.Int x -> safe_integer x) ->
    foldl JS.max2 acc (IDB.last_modified_number <$> records) = JS.Int z ->
    safe_integer z) as Hgen.
  { induction Hall as [|r records Hr _ IH]; intros acc Hacc; simpl; [by apply Hacc|].
    apply IH. unfold IDB.last_modified_number.
    destruct (last_modified r) as [y|] eqn:Hy; [|by destruct acc].
    specialize (Hr y eq_refl).
    destruct acc as [x| | |]; simpl; try done.
    - destruct (x <? y); intros x' [= <-]; [done | by apply Hacc].
    - by intros x' [= <-]. }
  by apply Hgen.
Qed.

(** X21: with safe integers for [last_modified] in the dump, [loadDump]
    never lowers the stored [lastModified], read as the number [loadDump]
    compares against (null is 0), whatever fails on the way.  The
    metadata store changes only when the maximum [last_modified] of the
    dump is strictly greater than the stored value; when every record of
    the dump has a [last_modified] that is not greater, the metadata store
    is left as it was. *)
Theorem loadDump_never_lowers_safe (records : list (record K)) (s : adapter K) :
  safe_dump records ->
  let before := JS.null_or_number_to_number (stored_lastModified (metadata s)) in
  let after :=
    JS.null_or_number_to_number
      (stored_lastModified (metadata (IDB.loadDump records s).2)) in
  JS.number_gt before after = false /\
  (metadata (IDB.loadDump records s).2 <> metadata s ->
   JS.number_gt (dump_maximum records) before = true) /\
  (Forall (fun r => exists z, last_modified r = Some z /\
                              JS.number_gt (JS.Int z) before = false) records ->
   metadata (IDB.loadDump records s).2 = metadata s).
Proof.
  intros Hsafe before after. subst after.
  destruct (loadDump_metadata records s) as [Hsame|[Hgt Hsaved]].
  - rewrite Hsame. split; [apply number_gt_irrefl|]. split; done.
  - fold before in Hgt. split; [|split; [done|]].
    + rewrite Hsaved. unfold stored_lastModified at 1.
      rewrite lookup_insert_eq.
      pose proof (dump_maximum_shape records) as Hshape.
      destruct (dump_maximum records) as [z| | |] eqn:Hmax; try done.
      * rewrite parseInt_printed by (by eapply dump_maximum_safe).
        pose proof (or_null_idempotent (JS.Int z)) as Hidem.
        assert (JS.null_or_number_to_number (IDB.or_null (JS.Int z)) = JS.Int z) as Hz.
        { unfold IDB.or_null. simpl. by destruct (Z.eqb_spec z 0) as [->|]. }
        destruct (IDB.or_null (JS.Int z)) as [n|] eqn:Hor.
        -- rewrite Hidem. simpl in Hz. rewrite Hz. by apply number_gt_asym.
        -- rewrite Hz. by apply number_gt_asym.
      * by destruct before.
    + intros Hall. apply dump_maximum_below in Hall. congruence.
Qed.

End LoadDump.

(** C3, where the code departs from it: with 5 for stored [lastModified],
    [loadDump] of one record whose [last_modified] is 1e21 finds
    [1e21 > 5] and calls [saveLastModified(1e21)], which stores
    [parseInt("1e+21", 10)], that is 1: the stored value is lowered from
    5 to 1, and [getLastModified] resolves with 1 afterwards. *)
Theorem loadDump_lowers_lastModified :
  let late := Record_ "c"%string None (Some 1000000000000000000000) [] in
  (IDB.getLastModified two_records).1 = JS.Resolved (Some (JS.Int 5)) /\
  dump_maximum [late] = JS.Int 1000000000000000000000 /\
  JS.number_gt (dump_maximum [late]) (JS.Int 5) = true /\
  JS.to_string (JS.Num (dump_maximum [late])) = "1e+21"%string /\
  JS.parseInt (JS.Num (dump_maximum [late])) = JS.Int 1 /\
  (IDB.loadDump [late] two_records).1 = JS.Resolved [late] /\
  metadata (IDB.loadDump [late] two_records).2 !! "lastModified"%string
  = Some (Some (JS.Int 1)) /\
  (IDB.then_ (IDB.loadDump [late]) (fun _ => IDB.getLastModified) two_records).1
  = JS.Resolved (Some (JS.Int 1)) /\
  JS.number_gt (JS.Int 5) (JS.Int 1) = true.
Proof. intros late. repeat split; by vm_compute. Qed.

Lemma loadDump_never_lowers_safe_witness :
  let gamma := Record_ "c"%string (Some "synced"%string) (Some 9) [] in
  safe_dump [gamma] /\
  JS.number_gt
    (JS.null_or_number_to_number (stored_lastModified (metadata two_records)))
    (JS.null_or_number_to_number
       (stored_lastModified (metadata (IDB.loadDump [gamma] two_records).2)))
  = false.
Proof.
  intros gamma.
  assert (safe_dump [gamma]) as Hsafe.
  { constructor; [|constructor]. intros x [= <-]. unfold safe_integer. lia. }
  split; [exact Hsafe|].
  exact (proj1 (loadDump_never_lowers_safe [gamma] two_records Hsafe)).
Defined.

(** ** Engine errors *)

Section EngineErrors.
Context {K : Type} `{Key K}.

Lemma in_query_no_values {R : Type} (entries : list (K * R)) (results : list R) :
  run_cursor (cursorHandlers_in []) entries None results = Some results.
Proof.
  induction entries as [|[k r] entries IH]; simpl; [done | apply IH].
Qed.


End EngineErrors.


(** ** The scenarios of the specification, with strings for ids *)

(** Scenario A: [create] in an empty store, then [get]. *)
Example scenario_create_then_get :
  let one := Record_ "1"%string None None [("title"%string, JS.Str "foo")] in
  (IDB.then_ (IDB.execute (Create one (Return (Value JS.Undefined))) [])
     (fun _ => IDB.get "1"%string) (Adapter false [] ∅ None [])).1
  = JS.Resolved (Some one).
Proof. by vm_compute. Qed.

(** Scenario B: ids 1 to 5 in the store, and 3, 5 and 9 asked for. *)
Example scenario_id_in :
  let numbered (i : string) := Record_ i None None [] in
  (IDB.list_ (fun _ _ records => records)
     [OnId (Many ["3"; "5"; "9"]%string)] None
     (Adapter false (numbered <$> ["1"; "2"; "3"; "4"; "5"]%string) ∅ None [])).1
  = JS.Resolved [numbered "3"%string; numbered "5"%string].
Proof. by vm_compute. Qed.

(** The same query on numbers for ids: one digit each, so that [sort()]
    leaves them in key order. *)
Example scenario_id_in_digits :
  let numbered (i : Z) := Record_ i None None [] in
  (IDB.list_ (fun _ _ records => records)
     [OnId (Many [5; 3; 9])] None
     (Adapter false (numbered <$> [1; 2; 3; 4; 5]) ∅ None [])).1
  = JS.Resolved [numbered 3; numbered 5].
Proof. by vm_compute. Qed.

(** Filters on the two other indexes, and on a field without index. *)
Example scenario_status_then_title :
  (IDB.list_ (fun _ _ records => records)
     [OnOther "title" (JS.Str "bar"); OnStatus (One "created")]%string None
     two_records).1
  = JS.Resolved [beta].
Proof. by vm_compute. Qed.

Example scenario_last_modified_in :
  (IDB.list_ (fun _ _ records => records)
     [OnLastModified (Many [7; 5])] None two_records).1
  = JS.Resolved [alpha].
Proof. by vm_compute. Qed.

(** [loadDump] raises the stored value from 5 to 9, and leaves it at 5
    for a dump that is not newer. *)
Example scenario_loadDump :
  let newer := Record_ "c"%string (Some "synced"%string) (Some 9) [] in
  let older := Record_ "d"%string (Some "synced"%string) (Some 3) [] in
  stored_lastModified (metadata (IDB.loadDump [newer; older] two_records).2)
    = Some (JS.Int 9) /\
  stored_lastModified (metadata (IDB.loadDump [older] two_records).2)
    = Some (JS.Int 5).
Proof. by vm_compute. Qed.

(** A commit that fails fires the abort event alone: [clear] stays
    pending and the collection is as it was, while a request that fails
    rejects it. *)
Example scenario_abort :
  let quota := JS.Error "QuotaExceededError" "The quota has been exceeded." in
  IDB.clear (Adapter true [alpha] ∅ None [Some Aborting])
  = (JS.Pending, Adapter true [alpha] ∅ None []) /\
  (IDB.clear (Adapter true [alpha] ∅ None [Some (Failing quota)])).1
  = JS.Rejected (JS.ThrownError
      (JS.Error "Error" "clear() QuotaExceededError: The quota has been exceeded.")).
Proof. by vm_compute. Qed.

(** A preloaded record whose id is ["__proto__"] becomes the prototype
    of the object of preloaded records: [get("__proto__")] returns it,
    and [get("title")] its title. *)
Example scenario_proto :
  let r := Record_ "__proto__"%string None None [("title", JS.Str "foo")]%string in
  IDB.own (IDB.by_id [r]) = ∅ /\
  IDB.get_property (IDB.by_id [r]) "__proto__" = ARecord r /\
  IDB.get_property (IDB.by_id [r]) "title" = AValue (JS.Str "foo") /\
  IDB.get_property (IDB.by_id [r]) "id" = AKey "__proto__"%string /\
  IDB.get_property (IDB.by_id [r]) "toString" = Builtin "toString" /\
  IDB.get_property (IDB.by_id [r]) "b" = NoProperty.
Proof. by vm_compute. Qed.

(** * Further properties *)

(** ** Cursors over an index *)

Section IndexCursors.
Context {K : Type} `{KeyLaws K}.

(** [cursorHandlers.all] collects the value of every entry, in cursor
    order. *)
Lemma all_collects {A : Type} `{Key A} (entries : list (A * record K))
    (results : list (record K)) :
  run_cursor cursorHandlers_all entries None results = Some (results ++ entries.*2).
Proof.
  revert results. induction entries as [|[k v] entries IH]; intros results; simpl.
  - by rewrite app_nil_r.
  - rewrite IH. by rewrite <- app_assoc.
Qed.

Lemma index_entries_elem {A : Type} `{Key A} (path : record K -> option A)
    (store : list (record K)) (k : A) (r : record K) :
  (k, r) ∈ index_entries path store <-> r ∈ store /\ path r = Some k.
Proof.
  unfold index_entries, primary_order. rewrite sort_by_perm.
  rewrite list_elem_of_omap. split.
  - intros (r' & Hin & Hp). rewrite sort_by_perm in Hin.
    destruct (path r') as [k'|] eqn:Hk; simpl in Hp; [|done].
    injection Hp as -> ->. done.
  - intros [Hin Hp]. exists r. rewrite sort_by_perm. split; [done|].
    by rewrite Hp.
Qed.

Lemma sort_by_sorted_list {B : Type} (lt : B -> B -> bool) (l : list B) :
  StronglySorted (not_after lt) l -> sort_by lt l = l.
Proof.
  induction l as [|x l IH]; [done|].
  intros [Hx Hl]%StronglySorted_cons.
  change (sort_by lt (x :: l)) with (insert_by lt x (sort_by lt l)).
  rewrite IH by done.
  destruct l as [|y l]; simpl; [done|].
  apply Forall_cons in Hx as [Hxy _]. unfold not_after in Hxy. by rewrite Hxy.
Qed.

(** A stable sort by key keeps the entries of one key in their order. *)
Lemma filter_key_sort_by {A : Type} `{KeyLaws A} {R : Type} (v : A)
    (l : list (A * R)) :
  List.filter (fun e => same_key e.1 v) (sort_by (fun a b => key_lt a.1 b.1) l)
  = List.filter (fun e => same_key e.1 v) l.
Proof.
  induction l as [|x l IH]; simpl; [done|].
  rewrite <- IH. generalize (sort_by (fun a b : A * R => key_lt a.1 b.1) l).
  intros sorted. induction sorted as [|y sorted IHs]; simpl; [done|].
  destruct (key_lt y.1 x.1) eqn:Hlt; simpl; [|done].
  rewrite IHs.
  destruct (same_key x.1 v) eqn:Hx; [|done].
  apply same_key_eq in Hx. subst v.
  assert (same_key y.1 x.1 = false) as ->; [|done].
  unfold same_key. by rewrite Hlt.
Qed.

Lemma primary_order_sorted (store : list (record K)) :
  StronglySorted (fun a b => key_lt (id b) (id a) = false) (primary_order store).
Proof.
  unfold primary_order.
  apply (sort_by_sorted (fun a b : record K => key_lt (id a) (id b))).
  - intros a b. apply key_lt_asym.
  - intros a b c. apply key_lt_neg_trans.
Qed.

Lemma id_index_entries (store : list (record K)) :
  index_entries by_primary_key store = (fun r => (id r, r)) <$> primary_order store.
Proof.
  unfold index_entries.
  assert (forall l : list (record K),
    omap (fun r => (fun k => (k, r)) <$> by_primary_key r) l
    = (fun r => (id r, r)) <$> l) as ->.
  { induction l as [|r l IH]; simpl; [done | f_equal; exact IH]. }
  apply sort_by_sorted_list.
  pose proof (primary_order_sorted store) as Hs.
  induction Hs as [|r l Hl IH Hr]; simpl; constructor; [done|].
  rewrite Forall_fmap. eapply Forall_impl; [exact Hr|]. done.
Qed.

End IndexCursors.

(** ** The three forms of query *)

Section Queries.
Context {K : Type} `{KeyLaws K}.

Lemma has_key_spec {A : Type} `{KeyLaws A} (path : record K -> option A) (v : A)
    (r : record K) :
  has_key path v r = true <-> path r = Some v.
Proof.
  unfold has_key. destruct (path r) as [k|]; [|done].
  rewrite same_key_eq. split; congruence.
Qed.

Lemma has_key_in_spec {A : Type} `{KeyLaws A} (path : record K -> option A)
    (values : list A) (r : record K) :
  has_key_in path values r = true <-> exists k, path r = Some k /\ k ∈ values.
Proof.
  unfold has_key_in. destruct (path r) as [k|].
  - rewrite existsb_exists. split.
    + intros (v & Hin & ->%key_strict_eq_spec). exists v.
      split; [done | by apply list_elem_of_In].
    + intros (k' & [= <-] & Hin). exists k. split; [by apply list_elem_of_In|].
      by apply (proj2 (key_strict_eq_spec k k)).
  - split; [done | by intros (k & ? & _)].
Qed.

Lemma entries_with_key {A : Type} `{Key A} (path : record K -> option A) (v : A)
    (l : list (record K)) :
  (List.filter (fun e : A * record K => same_key e.1 v)
     (omap (fun r => (fun k => (k, r)) <$> path r) l)).*2
  = List.filter (has_key path v) l.
Proof.
  unfold has_key. induction l as [|r l IH]; simpl; [done|].
  destruct (path r) as [k|]; simpl; [|exact IH].
  destruct (same_key k v); simpl; [f_equal|]; exact IH.
Qed.

Lemma entries_asked_for {A : Type} `{Key A} (path : record K -> option A)
    (values : list A) (l : list (record K)) :
  (List.filter (asked_for values)
     (omap (fun r => (fun k => (k, r)) <$> path r) l)).*2
  = List.filter (has_key_in path values) l.
Proof.
  unfold has_key_in, asked_for. induction l as [|r l IH]; simpl; [done|].
  destruct (path r) as [k|]; simpl; [|exact IH].
  destruct (existsb (key_strict_eq k) values); simpl; [f_equal|]; exact IH.
Qed.

(** The query for a single value delivers the records that have the
    value for key, in the order of the full scan. *)
Lemma query_index_one {A : Type} `{KeyLaws A} (path : record K -> option A) (v : A)
    (store : list (record K)) :
  IDB.query_index path (One v) store
  = Some (List.filter (has_key path v) (primary_order store)).
Proof.
  unfold IDB.query_index. rewrite all_collects. simpl. f_equal.
  etrans; [|apply (entries_with_key path v)]. f_equal.
  apply (filter_key_sort_by v).
Qed.

Lemma full_scan (store : list (record K)) (value : option (criterion K)) :
  IDB.createListRequest store None value = Some (primary_order store).
Proof.
  unfold IDB.createListRequest. rewrite all_collects. simpl. f_equal.
  change (fun r : record K => Some (id r)) with (@by_primary_key K).
  rewrite id_index_entries. rewrite <- list_fmap_compose.
  apply list_fmap_id.
Qed.

(** The merge-join is exact as soon as [sort()] has left the values in
    the order of the index. *)
Lemma in_query_complete_sorted {A : Type} `{KeyLaws A} {R : Type}
    (values : list A) (entries : list (A * R)) (target : option A)
    (results : list R) :
  StronglySorted (not_after key_lt) (array_sort values) ->
  StronglySorted (fun e1 e2 => key_lt e2.1 e1.1 = false) entries ->
  (forall t e, target = Some t -> e ∈ entries -> key_lt e.1 t = true ->
               e.1 ∉ values) ->
  run_cursor (cursorHandlers_in values) entries target results
  = Some (results ++ (List.filter (asked_for values) entries).*2).
Proof.
  intros Hvalues. revert target results.
  induction entries as [|[k r] entries IH]; intros target results Hsorted Htgt.
  { simpl. by rewrite app_nil_r. }
  apply StronglySorted_cons in Hsorted as [Hk Hsorted].
  rewrite Forall_forall in Hk.
  cbn [run_cursor].
  destruct (match target with Some t => key_lt k t | None => false end) eqn:Hskip.
  { destruct target as [t|]; [|done].
    cbn [List.filter]. rewrite asked_for_false.
    - apply IH; [done|]. intros t' e [= <-] He. apply Htgt; [done | by right].
    - apply (Htgt t); [done | by left | done]. }
  pose proof (skip_passed_sorted k (array_sort values) Hvalues) as Hstop.
  unfold cursorHandlers_in at 1.
  destruct (skip_passed k (array_sort values)) as [[v|]|] eqn:Hs.
  - destruct Hstop as (Hin & Hvk & Hall).
    destruct (key_strict_eq k v) eqn:He.
    + apply key_strict_eq_spec in He as <-.
      cbn [List.filter].
      rewrite (proj2 (asked_for_spec values (k, r)))
        by (by rewrite array_sort_perm in Hin).
      rewrite IH by done. simpl. by rewrite <- app_assoc.
    + assert (key_lt k v = true) as Hkv by by eapply continue_target_above.
      rewrite Hkv. cbn [List.filter]. rewrite asked_for_false.
      * apply IH; [done|]. intros t e [= <-] He' Hlt Hwant.
        rewrite <- array_sort_perm in Hwant.
        destruct (Hall _ Hwant) as [Hbelow|Hnot]; [|congruence].
        pose proof (Hk e He') as Hke. simpl in Hke. congruence.
      * simpl. intros Hwant. rewrite <- array_sort_perm in Hwant.
        destruct (Hall _ Hwant) as [Hbelow|Hnot]; [|congruence].
        by rewrite key_lt_irrefl in Hbelow.
  - assert (values = []) as ->.
    { apply Permutation_nil_r. by rewrite <- Hstop, array_sort_perm. }
    rewrite IH by done. done.
  - rewrite filter_nothing; [by rewrite app_nil_r|].
    intros e He'. apply asked_for_false. intros Hwant.
    rewrite <- array_sort_perm in Hwant. specialize (Hstop _ Hwant).
    apply elem_of_cons in He' as [->|He']; simpl in *.
    + by rewrite key_lt_irrefl in Hstop.
    + pose proof (Hk e He') as Hke. simpl in Hke. congruence.
Qed.

Lemma array_sort_sorted {A : Type} `{KeyLaws A} `{!SortAgrees A} (values : list A) :
  StronglySorted (not_after key_lt) (array_sort values).
Proof.
  rewrite array_sort_by_key_lt.
  apply (sort_by_sorted key_lt key_lt_asym key_lt_neg_trans).
Qed.

Lemma sorted_entries_values {A : Type} `{Key A} (path : record K -> option A)
    (p : A * record K -> bool) (entries : list (A * record K)) :
  StronglySorted (fun e1 e2 => key_lt e2.1 e1.1 = false) entries ->
  Forall (fun e => path e.2 = Some e.1) entries ->
  StronglySorted (fun a b => forall ka kb, path a = Some ka -> path b = Some kb ->
                                          key_lt kb ka = false)
    (List.filter p entries).*2.
Proof.
  induction entries as [|e entries IH]; simpl; [constructor|].
  intros [He Hs]%StronglySorted_cons [Hp Hall]%Forall_cons.
  destruct (p e); [|by apply IH]. rewrite fmap_cons.
  apply StronglySorted_cons. split; [|by apply IH].
  rewrite Forall_fmap, Forall_forall. intros e' Hin%list_elem_of_In.
  apply filter_In in Hin as [Hin%list_elem_of_In _]. simpl.
  rewrite Forall_forall in He, Hall.
  intros ka kb Ha Hb. rewrite Hp in Ha. rewrite (Hall e' Hin) in Hb.
  injection Ha as <-. injection Hb as <-. by apply He.
Qed.

(** An IN query on any index, once [sort()] has left the values in the
    order of the index. *)
Lemma query_index_many {A : Type} `{KeyLaws A} (path : record K -> option A)
    (values : list A) (store : list (record K)) :
  StronglySorted (not_after key_lt) (array_sort values) ->
  exists records,
    IDB.query_index path (Many values) store = Some records /\
    records ≡ₚ List.filter (has_key_in path values) store /\
    StronglySorted (fun a b => forall ka kb, path a = Some ka -> path b = Some kb ->
                                            key_lt kb ka = false) records.
Proof.
  intros Hvalues. unfold IDB.query_index.
  rewrite (in_query_complete_sorted values); [|done|apply index_entries_sorted|done].
  eexists; split; [done|]. simpl. split.
  - rewrite <- (entries_asked_for path values store).
    apply fmap_Permutation, filter_perm.
    unfold index_entries, primary_order. rewrite sort_by_perm.
    by rewrite (sort_by_perm _ store).
  - apply sorted_entries_values; [apply index_entries_sorted|].
    apply Forall_forall. intros [k r] Hin.
    apply index_entries_elem in Hin as [_ Hp]. exact Hp.
Qed.

End Queries.

Section QueryProperties.
Context {K : Type} `{KeyLaws K}.

(** X2: an IN query, on any index and whatever [sort()] made of the
    values (numbers included), runs to its end without a [continue(key)]
    that the cursor refuses, and delivers nothing but records of the
    store whose key on that index is one of the values. *)
Theorem in_query_delivers_only_asked {A : Type} `{KeyLaws A}
    (path : record K -> option A) (values : list A) (store : list (record K)) :
  exists records,
    IDB.query_index path (Many values) store = Some records /\
    forall r, r ∈ records ->
      r ∈ store /\ exists k, path r = Some k /\ k ∈ values.
Proof.
  unfold IDB.query_index.
  destruct (in_query_total values (index_entries path store) None [])
    as (records & Hrun).
  exists records. split; [done|].
  apply in_query_sound in Hrun as (picked & -> & Hsub & Hall).
  intros r ([k r'] & -> & Hin)%list_elem_of_fmap. simpl.
  rewrite Forall_forall in Hall. pose proof (Hall _ Hin) as Hk.
  apply Hsub, index_entries_elem in Hin as [Hstore Hpath]. eauto.
Qed.

(** X4: on any index, an IN query whose values [sort()] leaves in the
    order of the index (as it does strings, and numbers of one digit)
    delivers exactly the records of the store whose key is one of the
    values, each once, in ascending key order. *)
Theorem in_query_exact_when_sorted {A : Type} `{KeyLaws A}
    (path : record K -> option A) (values : list A) (store : list (record K)) :
  StronglySorted (not_after key_lt) (array_sort values) ->
  exists records,
    IDB.query_index path (Many values) store = Some records /\
    records ≡ₚ List.filter (has_key_in path values) store /\
    (forall r, r ∈ records <->
       r ∈ store /\ exists k, path r = Some k /\ k ∈ values) /\
    StronglySorted (fun a b => forall ka kb, path a = Some ka -> path b = Some kb ->
                                            key_lt kb ka = false) records.
Proof.
  intros Hvalues.
  destruct (query_index_many path values store Hvalues) as (records & Hq & Hp & Hs).
  exists records. split; [done|]. split; [done|]. split; [|done].
  intros r. rewrite Hp, list_elem_of_In, filter_In, <- list_elem_of_In.
  by rewrite has_key_in_spec.
Qed.

(** X6: the query for a single value on an index delivers what the full
    scan delivers, filtered on that value and in the same order: for each
    of the three indexes, the records whose field is the value, by
    ascending id. *)
Theorem scalar_query_filters_full_scan (store : list (record K)) (field : string) :
  exists scan,
    IDB.createListRequest store None None = Some scan /\
    (forall v, IDB.createListRequest store (Some field) (Some (OnId (One v)))
               = Some (List.filter (fun r => same_key (id r) v) scan)) /\
    (forall v, IDB.createListRequest store (Some field) (Some (OnStatus (One v)))
               = Some (List.filter (has_key (@_status K) v) scan)) /\
    (forall v, IDB.createListRequest store (Some field) (Some (OnLastModified (One v)))
               = Some (List.filter (has_key (@last_modified K) v) scan)) /\
    (forall v r, has_key (@_status K) v r = true <-> _status r = Some v) /\
    (forall v r, has_key (@last_modified K) v r = true <-> last_modified r = Some v).
Proof.
  exists (primary_order store). split; [apply full_scan|].
  split; [|split; [|split; [|split]]].
  - intros v. simpl. apply (query_index_one by_primary_key).
  - intros v. simpl. apply query_index_one.
  - intros v. simpl. apply query_index_one.
  - intros v r. apply has_key_spec.
  - intros v r. apply has_key_spec.
Qed.

(** X7: with no filter on an indexed field, [list] hands [reduceRecords]
    every record of the collection, by ascending id, and the filters,
    short of one named ["undefined"] ([delete filters[undefined]]). *)
Theorem list_full_scan reduceRecords (filters : list (criterion K)) order
    (s : adapter K) :
  working s ->
  IDB.findIndexedField filters = None ->
  (IDB.list_ reduceRecords filters order s).1
  = JS.Resolved (reduceRecords (IDB.without "undefined" filters) order
                   (primary_order (collection s))) /\
  primary_order (collection s) ≡ₚ collection s /\
  StronglySorted (fun a b => key_lt (id b) (id a) = false)
    (primary_order (collection s)).
Proof.
  intros Hw Hnone. split; [|split].
  - rewrite list_working by done. unfold listed. rewrite Hnone.
    by rewrite full_scan.
  - apply sort_by_perm.
  - apply primary_order_sorted.
Qed.

End QueryProperties.

Section ListProperties.
Context {K : Type} `{Key K}.

(** X3: with an empty array for value, on any of the three indexes and
    for any kind of key, [list] walks the index through, collects nothing
    and hands [reduceRecords] no record. *)
Theorem list_in_nothing reduceRecords order (s : adapter K) :
  working s ->
  (IDB.list_ reduceRecords [OnId (Many [])] order s).1
    = JS.Resolved (reduceRecords [] order []) /\
  (IDB.list_ reduceRecords [OnStatus (Many [])] order s).1
    = JS.Resolved (reduceRecords [] order []) /\
  (IDB.list_ reduceRecords [OnLastModified (Many [])] order s).1
    = JS.Resolved (reduceRecords [] order []).
Proof.
  intros Hw. rewrite !list_working by done. unfold listed. simpl.
  unfold IDB.query_index. by rewrite !in_query_no_values.
Qed.

(** X5: [list({filters: {_status: values}})], the statuses being
    strings, hands [reduceRecords] exactly the records whose [_status] is
    one of [values], each once, and no filter. *)
Theorem list_status_in reduceRecords (values : list string) order (s : adapter K) :
  working s ->
  exists records,
    (IDB.list_ reduceRecords [OnStatus (Many values)] order s).1
      = JS.Resolved (reduceRecords [] order records) /\
    records ≡ₚ List.filter (has_key_in _status values) (collection s) /\
    forall r, r ∈ records <->
      r ∈ collection s /\ exists status, _status r = Some status /\ status ∈ values.
Proof.
  intros Hw. rewrite list_working by done.
  change (listed reduceRecords [OnStatus (Many values)] order (collection s))
    with (match IDB.query_index (@_status K) (Many values) (collection s) with
          | Some records => JS.Resolved (reduceRecords [] order records)
          | None => JS.Pending
          end).
  destruct (query_index_many (@_status K) values (collection s)
              (array_sort_sorted values)) as (records & -> & Hp & _).
  exists records. split; [done|]. split; [done|].
  intros r. rewrite Hp, list_elem_of_In, filter_In, <- list_elem_of_In.
  by rewrite has_key_in_spec.
Qed.

End ListProperties.

(** ** Requests on the collection store *)

Section StoreRequests.
Context {K : Type} `{KeyLaws K}.

Lemma find_app_last {B : Type} (p : B -> bool) (l : list B) (x : B) :
  List.find p (l ++ [x])
  = match List.find p l with
    | Some y => Some y
    | None => if p x then Some x else None
    end.
Proof.
  induction l as [|y l IH]; simpl; [done|]. by destruct (p y).
Qed.

Lemma find_filter_implied {B : Type} (p q : B -> bool) (l : list B) :
  (forall x, p x = true -> q x = true) ->
  List.find p (List.filter q l) = List.find p l.
Proof.
  intros Hpq. induction l as [|y l IH]; simpl; [done|].
  destruct (p y) eqn:Hp.
  - rewrite (Hpq y Hp). simpl. by rewrite Hp.
  - destruct (q y); simpl; [by rewrite Hp | done].
Qed.

Lemma find_filter_excluded {B : Type} (p q : B -> bool) (l : list B) :
  (forall x, p x = true -> q x = false) ->
  List.find p (List.filter q l) = None.
Proof.
  intros Hpq. induction l as [|y l IH]; simpl; [done|].
  destruct (q y) eqn:Hq; simpl; [|done].
  destruct (p y) eqn:Hp; [|done]. apply Hpq in Hp. congruence.
Qed.

Lemma same_key_neq (a b : K) : same_key a b = false <-> a <> b.
Proof.
  rewrite <- same_key_eq. by destruct (same_key a b).
Qed.

Lemma store_get_delete (key key' : K) (store : list (record K)) :
  store_get key (store_delete key' store)
  = if same_key key' key then None else store_get key store.
Proof.
  unfold store_get, store_delete.
  destruct (same_key key' key) eqn:Hk.
  - apply same_key_eq in Hk as ->. apply find_filter_excluded.
    intros r ->. done.
  - apply find_filter_implied. intros r Hr%same_key_eq.
    apply negb_true_iff, same_key_neq. apply same_key_neq in Hk. congruence.
Qed.

Lemma store_get_put (key : K) (r : record K) (store : list (record K)) :
  store_get key (store_put r store)
  = if same_key (id r) key then Some r else store_get key store.
Proof.
  unfold store_put. unfold store_get at 1. rewrite find_app_last.
  fold (store_get key (store_delete (id r) store)).
  rewrite store_get_delete. destruct (same_key (id r) key); [done|].
  by destruct (store_get key store).
Qed.

Lemma store_get_add (key : K) (r : record K) (store store' : list (record K)) :
  store_add r store = Some store' ->
  store_get key store'
  = if same_key (id r) key then Some r else store_get key store.
Proof.
  unfold store_add. destruct (store_get (id r) store) eqn:Hfree; [done|].
  intros [= <-]. unfold store_get at 1. rewrite find_app_last.
  fold (store_get key store).
  destruct (same_key (id r) key) eqn:Hk.
  - apply same_key_eq in Hk as <-. by rewrite Hfree.
  - by destruct (store_get key store).
Qed.

Lemma store_delete_absent (key : K) (store : list (record K)) :
  store_get key store = None -> store_delete key store = store.
Proof.
  unfold store_get, store_delete. intros Hnone.
  induction store as [|r store IH]; simpl in *; [done|].
  destruct (same_key (id r) key); [done|]. simpl. f_equal. by apply IH.
Qed.

(** Where a sequence of requests fails: at an [add] of a record whose id
    the store holds by then. *)
Lemma run_requests_fails (qs : list (request K)) (store : list (record K)) :
  run_requests qs store = None <->
  exists before r after store',
    qs = before ++ Add r :: after /\
    run_requests before store = Some store' /\
    is_Some (store_get (id r) store').
Proof.
  revert store. induction qs as [|q qs IH]; intros store; simpl.
  - split; [done|].
    intros ([|q0 before] & r & after & store' & Heq & _); discriminate.
  - destruct (run_request q store) as [store1|] eqn:Hq.
    + rewrite IH. split.
      * intros (before & r & after & store' & -> & Hrun & Hget).
        exists (q :: before), r, after, store'. simpl. by rewrite Hq.
      * intros ([|q' before] & r & after & store' & Heq & Hrun & Hget);
          simpl in *.
        -- injection Heq as -> ->. injection Hrun as Hs. subst store'.
           simpl in Hq. unfold store_add in Hq. destruct Hget as [x Hx].
           by rewrite Hx in Hq.
        -- injection Heq as <- ->. rewrite Hq in Hrun. eauto 10.
    + split; [intros _ | done].
      destruct q as [r0|r0|key]; simpl in Hq; try done.
      exists [], r0, qs, store. split; [done|]. split; [done|].
      unfold store_add in Hq. by destruct (store_get (id r0) store).
Qed.

(** [execute] when nothing fails. *)
Lemma execute_working (callback : batch K) (preload : list K) (s : adapter K)
    (queued : list (request K)) (v : JS.value) (c : list (record K)) :
  working s ->
  IDB.transactionProxy (preloaded_for preload s) callback
    = (queued, Returned (Value v)) ->
  run_requests queued (collection s) = Some c ->
  exists s1,
    IDB.execute callback preload s = (JS.Resolved v, s1) /\
    working s1 /\ collection s1 = c /\ metadata s1 = metadata s.
Proof.
  intros Hw Hproxy Hrun.
  rewrite (execute_connected callback preload s (proj1 Hw)).
  destruct (working_open s Hw) as [_ Hw1].
  destruct (working_next_fault _ Hw1) as (s2 & -> & Hw2 & _ & Hc & Hm).
  rewrite Hproxy, Hc.
  change (collection (IDB.set_db true s)) with (collection s). rewrite Hrun.
  eexists; split; [done|]. split; [by apply working_set_collection|].
  split; [by destruct s2 | by destruct s2, s].
Qed.

End StoreRequests.

(** ** Writing in a batch, reading afterwards *)

Section ExecutorProperties.
Context {K : Type} `{KeyLaws K}.

Lemma then_get_working (p : IDB.promise JS.value) (s s1 : adapter K) (v : JS.value)
    (key : K) :
  p s = (JS.Resolved v, s1) -> working s1 ->
  (IDB.then_ p (fun _ => IDB.get key) s).1
  = JS.Resolved (store_get key (collection s1)).
Proof.
  intros Hp Hw1. unfold IDB.then_ at 1. rewrite Hp. by apply get_working.
Qed.

(** X8: a batch that creates a record whose id the store does not hold
    resolves with what the callback returned, and afterwards [get]
    resolves with that record for its id and with what it resolved with
    before for any other id. *)
Theorem create_then_get (r : record K) (v : JS.value) (preload : list K)
    (s : adapter K) :
  working s ->
  store_get (id r) (collection s) = None ->
  (IDB.execute (Create r (Return (Value v))) preload s).1 = JS.Resolved v /\
  (IDB.then_ (IDB.execute (Create r (Return (Value v))) preload)
     (fun _ => IDB.get (id r)) s).1 = JS.Resolved (Some r) /\
  forall key, key <> id r ->
    (IDB.then_ (IDB.execute (Create r (Return (Value v))) preload)
       (fun _ => IDB.get key) s).1 = (IDB.get key s).1.
Proof.
  intros Hw Hfree.
  assert (run_requests [Add r] (collection s) = Some (collection s ++ [r])) as Hrun.
  { simpl. unfold store_add. by rewrite Hfree. }
  destruct (execute_working (Create r (Return (Value v))) preload s
              [Add r] v _ Hw eq_refl Hrun) as (s1 & Hex & Hw1 & Hc & Hm).
  split; [by rewrite Hex|]. split.
  - rewrite (then_get_working _ s s1 v) by done. rewrite Hc.
    rewrite (store_get_add (id r) r (collection s) (collection s ++ [r])).
    + by rewrite (proj2 (same_key_eq (id r) (id r)) eq_refl).
    + unfold store_add. by rewrite Hfree.
  - intros key Hne. rewrite (then_get_working _ s s1 v) by done.
    rewrite get_working by done. rewrite Hc.
    rewrite (store_get_add key r (collection s) (collection s ++ [r])).
    + apply not_eq_sym, same_key_neq in Hne. by rewrite Hne.
    + unfold store_add. by rewrite Hfree.
Qed.

(** X9: a batch that updates a record resolves whether the store held
    its id or not, and afterwards [get] resolves with that record for its
    id and with what it resolved with before for any other id. *)
Theorem update_then_get (r : record K) (v : JS.value) (preload : list K)
    (s : adapter K) :
  working s ->
  (IDB.execute (Update r (Return (Value v))) preload s).1 = JS.Resolved v /\
  (IDB.then_ (IDB.execute (Update r (Return (Value v))) preload)
     (fun _ => IDB.get (id r)) s).1 = JS.Resolved (Some r) /\
  forall key, key <> id r ->
    (IDB.then_ (IDB.execute (Update r (Return (Value v))) preload)
       (fun _ => IDB.get key) s).1 = (IDB.get key s).1.
Proof.
  intros Hw.
  destruct (execute_working (Update r (Return (Value v))) preload s
              [Put r] v _ Hw eq_refl eq_refl) as (s1 & Hex & Hw1 & Hc & Hm).
  split; [by rewrite Hex|]. split.
  - rewrite (then_get_working _ s s1 v) by done. rewrite Hc, store_get_put.
    by rewrite (proj2 (same_key_eq (id r) (id r)) eq_refl).
  - intros key Hne. rewrite (then_get_working _ s s1 v) by done.
    rewrite get_working by done. rewrite Hc, store_get_put.
    apply not_eq_sym, same_key_neq in Hne. by rewrite Hne.
Qed.

(** X10: a batch that deletes an id resolves whether the store held it
    or not; afterwards [get] resolves with undefined for that id and with
    what it resolved with before for any other id, and the collection is
    as it was when the store did not hold the id. *)
Theorem delete_then_get (key : K) (v : JS.value) (preload : list K)
    (s : adapter K) :
  working s ->
  (IDB.execute (Remove key (Return (Value v))) preload s).1 = JS.Resolved v /\
  (IDB.then_ (IDB.execute (Remove key (Return (Value v))) preload)
     (fun _ => IDB.get key) s).1 = JS.Resolved None /\
  (forall key', key' <> key ->
     (IDB.then_ (IDB.execute (Remove key (Return (Value v))) preload)
        (fun _ => IDB.get key') s).1 = (IDB.get key' s).1) /\
  (store_get key (collection s) = None ->
   collection (IDB.execute (Remove key (Return (Value v))) preload s).2
   = collection s).
Proof.
  intros Hw.
  destruct (execute_working (Remove key (Return (Value v))) preload s
              [Delete key] v _ Hw eq_refl eq_refl) as (s1 & Hex & Hw1 & Hc & Hm).
  split; [by rewrite Hex|]. split; [|split].
  - rewrite (then_get_working _ s s1 v) by done. rewrite Hc, store_get_delete.
    by rewrite (proj2 (same_key_eq key key) eq_refl).
  - intros key' Hne. rewrite (then_get_working _ s s1 v) by done.
    rewrite get_working by done. rewrite Hc, store_get_delete.
    apply not_eq_sym, same_key_neq in Hne. by rewrite Hne.
  - intros Habsent. rewrite Hex. simpl. rewrite Hc.
    by apply store_delete_absent.
Qed.

End ExecutorProperties.

(** ** What the operations leave alone *)

Section Frames.
Context {K : Type} `{Key K}.

Lemma open_keeps (s : adapter K) :
  collection (IDB.open s).2 = collection s /\ metadata (IDB.open s).2 = metadata s.
Proof. unfold IDB.open. by destruct s as [[] c m [e|] fs]. Qed.

Lemma handleError_keeps {B : Type} (method : string) (t : JS.thrown) (s : adapter K) :
  (IDB._handleError (A := B) method t s).2 = s.
Proof. by destruct t as [e|[| |n|str]]. Qed.

Lemma transaction_reads {B : Type} (on_error : JS.error -> JS.thrown)
    (read : adapter K -> B) (s : adapter K) :
  collection (IDB.transaction on_error (fun s => (read s, s)) s).2 = collection s /\
  metadata (IDB.transaction on_error (fun s => (read s, s)) s).2 = metadata s.
Proof.
  unfold IDB.transaction.
  destruct (next_fault_keeps s) as (Hc & Hm & _).
  by destruct (IDB.next_fault s) as [[[e|]|] s1].
Qed.

Lemma get_keeps (key : K) (s : adapter K) :
  collection (IDB.get key s).2 = collection s /\
  metadata (IDB.get key s).2 = metadata s.
Proof.
  unfold IDB.get, IDB.catch_, IDB.then_.
  destruct (open_keeps s) as [Hc Hm].
  destruct (IDB.open s) as [[[]|t|] s0]; simpl in *;
    rewrite ?handleError_keeps; try done.
  rewrite <- Hc, <- Hm.
  pose proof (transaction_reads IDB.wrapped
                (fun s => store_get key (collection s)) s0) as Ht.
  destruct (IDB.transaction _ _ s0) as [[r|t|] s1]; simpl in *;
    rewrite ?handleError_keeps; done.
Qed.

Lemma getLastModified_keeps (s : adapter K) :
  collection (IDB.getLastModified s).2 = collection s /\
  metadata (IDB.getLastModified s).2 = metadata s.
Proof.
  unfold IDB.getLastModified, IDB.then_.
  destruct (open_keeps s) as [Hc Hm].
  destruct (IDB.open s) as [[[]|t|] s0]; simpl in *; try done.
  rewrite <- Hc, <- Hm. apply transaction_reads.
Qed.

Lemma list_keeps reduceRecords filters order (s : adapter K) :
  collection (IDB.list_ reduceRecords filters order s).2 = collection s /\
  metadata (IDB.list_ reduceRecords filters order s).2 = metadata s.
Proof.
  unfold IDB.list_, IDB.catch_, IDB.then_, IDB.resolve.
  destruct (open_keeps s) as [Hc Hm].
  destruct (IDB.open s) as [[[]|t|] s0]; simpl in *;
    rewrite ?handleError_keeps; try done.
  rewrite <- Hc, <- Hm.
  destruct (next_fault_keeps s0) as (Hc1 & Hm1 & _).
  destruct (IDB.next_fault s0) as [fault s1]. simpl in *.
  destruct (IDB.createListRequest _ _ _) as [results|]; [|done].
  destruct fault as [[e|]|]; simpl; rewrite ?handleError_keeps; done.
Qed.

Lemma saveLastModified_keeps (v : JS.value) (s : adapter K) :
  collection (IDB.saveLastModified v s).2 = collection s.
Proof.
  unfold IDB.saveLastModified, IDB.then_, IDB.transaction.
  destruct (open_keeps s) as [Hc _].
  destruct (IDB.open s) as [[[]|t|] s0]; simpl in *; try done.
  rewrite <- Hc.
  destruct (next_fault_keeps s0) as (Hc1 & _).
  destruct (IDB.next_fault s0) as [[[e|]|] s1]; simpl in *; [done..|].
  by destruct s1.
Qed.

Lemma clear_keeps (s : adapter K) : metadata (IDB.clear s).2 = metadata s.
Proof.
  unfold IDB.clear, IDB.catch_, IDB.then_, IDB.transaction.
  destruct (open_keeps s) as [_ Hm].
  destruct (IDB.open s) as [[[]|t|] s0]; simpl in *;
    rewrite ?handleError_keeps; try done.
  rewrite <- Hm.
  destruct (next_fault_keeps s0) as (_ & Hm1 & _).
  destruct (IDB.next_fault s0) as [[[e|]|] s1]; simpl in *;
    rewrite ?handleError_keeps; [done..|].
  by destruct s1.
Qed.

(** [loadDump] writes to the collection through its [execute] only. *)
Lemma loadDump_collection (records : list (record K)) (s : adapter K) :
  collection (IDB.loadDump records s).2
  = collection (IDB.execute (foldr Update (Return (Value JS.Undefined)) records) [] s).2.
Proof.
  remember (collection (IDB.loadDump records s).2) as after eqn:Hafter.
  unfold IDB.loadDump, IDB.catch_ in Hafter. unfold IDB.then_ at 1 2 3 in Hafter.
  destruct (IDB.execute _ [] s) as [[u|t|] s1]; simpl in *;
    rewrite ?handleError_keeps in Hafter; try done.
  destruct (getLastModified_keeps s1) as [Hg _].
  destruct (IDB.getLastModified s1) as [[previous|t|] s2]; simpl in *;
    rewrite ?handleError_keeps in Hafter; try congruence.
  destruct (JS.number_gt _ _).
  - unfold IDB.then_ in Hafter.
    pose proof (saveLastModified_keeps
      (JS.Num (JS.math_max (IDB.last_modified_number <$> records))) s2) as Hs.
    destruct (IDB.saveLastModified _ s2) as [[saved|t|] s3]; simpl in *;
      rewrite ?handleError_keeps in Hafter; congruence.
  - simpl in Hafter. congruence.
Qed.

End Frames.

Section FrameProperties.
Context {K : Type} `{Key K}.

Lemma execute_collection (callback : batch K) (preload : list K) (s : adapter K) :
  collection (IDB.execute callback preload s).2 = collection s \/
  exists queued c,
    (IDB.transactionProxy (preloaded_for preload s) callback).1 = queued /\
    run_requests queued (collection s) = Some c /\
    collection (IDB.execute callback preload s).2 = c /\
    ((exists v, (IDB.execute callback preload s).1 = JS.Resolved v) \/
     (IDB.transactionProxy (preloaded_for preload s) callback).2 = Returned APromise).
Proof.
  unfold IDB.execute, IDB.then_, preloaded_for.
  destruct (open_keeps s) as [Hc _].
  destruct (IDB.open s) as [[[]|t|] s0]; simpl in Hc; [|by left..].
  destruct (next_fault_keeps s0) as (Hc1 & _).
  destruct (IDB.next_fault s0) as [fault s1]. simpl in Hc1.
  rewrite Hc1, Hc.
  change (fun r : record K => Some (id r)) with (@by_primary_key K).
  destruct (IDB.query_index by_primary_key (Many preload) (collection s))
    as [records|]; [|left; simpl; congruence].
  simpl.
  destruct (IDB.transactionProxy (IDB.by_id records) callback)
    as [queued [[v|]|e]]; simpl.
  - destruct (run_requests queued (collection s)) as [c|] eqn:Hrun;
      [|left; simpl; congruence].
    destruct fault as [[e|]|]; [left; simpl; congruence..|].
    right. exists queued, c. simpl. repeat split; [by destruct s1 | eauto].
  - destruct (run_requests queued (collection s)) as [c|] eqn:Hrun;
      [|left; simpl; congruence].
    destruct fault as [[e|]|]; [left; simpl; congruence..|].
    right. exists queued, c. simpl. repeat split; [by destruct s1 | by right].
  - left. simpl. congruence.
Qed.

(** X12: whatever the callback and whatever fails, [execute] leaves the
    collection as it was unless it resolves or the callback returned a
    Promise: a throw, a failed request and an engine error all undo the
    batch. *)
Theorem execute_writes_only_when_it_resolves (callback : batch K)
    (preload : list K) (s : adapter K) :
  collection (IDB.execute callback preload s).2 = collection s \/
  (exists v, (IDB.execute callback preload s).1 = JS.Resolved v) \/
  (IDB.transactionProxy (preloaded_for preload s) callback).2 = Returned APromise.
Proof.
  destruct (execute_collection callback preload s)
    as [Hsame|(queued & c & _ & _ & _ & [Hres|Hprom])]; eauto.
Qed.

(** X13: [get], [list] and [getLastModified] write to neither store,
    whether they resolve or reject; [saveLastModified] never writes to
    the collection, and [clear] and [execute] never to the metadata. *)
Theorem operations_leave_alone (s : adapter K) (key : K) reduceRecords
    (filters : list (criterion K)) order (v : JS.value) (callback : batch K)
    (preload : list K) :
  (collection (IDB.get key s).2 = collection s /\
   metadata (IDB.get key s).2 = metadata s) /\
  (collection (IDB.list_ reduceRecords filters order s).2 = collection s /\
   metadata (IDB.list_ reduceRecords filters order s).2 = metadata s) /\
  (collection (IDB.getLastModified s).2 = collection s /\
   metadata (IDB.getLastModified s).2 = metadata s) /\
  collection (IDB.saveLastModified v s).2 = collection s /\
  metadata (IDB.clear s).2 = metadata s /\
  metadata (IDB.execute callback preload s).2 = metadata s.
Proof.
  split; [apply get_keeps|]. split; [apply list_keeps|].
  split; [apply getLastModified_keeps|]. split; [apply saveLastModified_keeps|].
  split; [apply clear_keeps | apply execute_metadata].
Qed.

End FrameProperties.

Section Invariant.
Context {K : Type} `{KeyLaws K}.

Lemma clear_collection (s : adapter K) :
  collection (IDB.clear s).2 = collection s \/ collection (IDB.clear s).2 = [].
Proof.
  unfold IDB.clear, IDB.catch_, IDB.then_, IDB.transaction.
  destruct (open_keeps s) as [Hc _].
  destruct (IDB.open s) as [[[]|t|] s0]; simpl in *;
    rewrite ?handleError_keeps; try (by left).
  destruct (next_fault_keeps s0) as (Hc1 & _).
  destruct (IDB.next_fault s0) as [[[e|]|] s1]; simpl in *;
    rewrite ?handleError_keeps; [left; congruence.. | by right].
Qed.

(** X14: the collection holds at most one record per id, and [execute]
    with any callback, [loadDump] and [clear] keep it so. *)
Theorem one_record_per_id (s : adapter K) (callback : batch K) (preload : list K)
    (records : list (record K)) :
  NoDup (id <$> collection s) ->
  NoDup (id <$> collection (IDB.execute callback preload s).2) /\
  NoDup (id <$> collection (IDB.loadDump records s).2) /\
  NoDup (id <$> collection (IDB.clear s).2).
Proof.
  intros Hnd.
  assert (forall cb pre, NoDup (id <$> collection (IDB.execute cb pre s).2)) as Hex.
  { intros cb pre.
    destruct (execute_collection cb pre s) as [->|(queued & c & _ & Hrun & -> & _)];
      [done|]. by eapply run_requests_ids. }
  split; [apply Hex|]. split.
  - rewrite loadDump_collection. apply Hex.
  - destruct (clear_collection s) as [->| ->]; [done | constructor].
Qed.

End Invariant.

Section ExecutorFailures.
Context {K : Type} `{KeyLaws K}.

(** X11: when a callback that returns a value has created a record whose
    id the store holds by the time its [add] is run, [execute] rejects
    with a [new Error] of the engine's ConstraintError and nothing the
    batch did is kept, the requests queued before that [create]
    included. *)
Theorem create_existing_undoes_batch (callback : batch K) (preload : list K)
    (s : adapter K) (v : JS.value) (before after : list (request K))
    (r : record K) (store' : list (record K)) :
  connects s ->
  IDB.transactionProxy (preloaded_for preload s) callback
    = (before ++ Add r :: after, Returned (Value v)) ->
  run_requests before (collection s) = Some store' ->
  is_Some (store_get (id r) store') ->
  exists s1,
    IDB.execute callback preload s
      = (JS.Rejected (JS.ThrownError
           (JS.Error "Error" (JS.error_to_string constraint_error))), s1) /\
    collection s1 = collection s /\
    metadata s1 = metadata s.
Proof.
  intros Hc Hproxy Hrun Hheld.
  assert (run_requests (before ++ Add r :: after) (collection s) = None) as Hfail.
  { apply run_requests_fails. eauto 10. }
  rewrite (execute_connected callback preload s Hc).
  destruct (next_fault_keeps (IDB.set_db true s)) as (Hcol & Hmeta & _).
  destruct (IDB.next_fault (IDB.set_db true s)) as [fault s1]. simpl in *.
  rewrite Hproxy, Hcol.
  change (collection (IDB.set_db true s)) with (collection s). rewrite Hfail.
  exists s1. split; [done|]. by destruct s.
Qed.

End ExecutorFailures.

Lemma create_existing_undoes_batch_witness :
  let gamma := Record_ "c"%string None None [] in
  let callback := Update gamma (Create alpha (Return (Value JS.Null))) in
  connects two_records /\
  exists s1,
    IDB.execute callback [] two_records
      = (JS.Rejected (JS.ThrownError
           (JS.Error "Error"
              "ConstraintError: Key already exists in the object store.")), s1) /\
    collection s1 = [alpha; beta].
Proof.
  intros gamma callback.
  assert (connects two_records) as Hc by (right; reflexivity).
  split; [exact Hc|].
  assert (IDB.transactionProxy (preloaded_for [] two_records) callback
          = ([Put gamma] ++ Add alpha :: [], Returned (Value JS.Null))) as Hproxy
    by reflexivity.
  assert (run_requests [Put gamma] (collection two_records)
          = Some [alpha; beta; gamma]) as Hput by (vm_compute; reflexivity).
  assert (is_Some (store_get (id alpha) [alpha; beta; gamma])) as Hheld
    by (exists alpha; vm_compute; reflexivity).
  destruct (create_existing_undoes_batch callback [] two_records JS.Null
              [Put gamma] [] alpha [alpha; beta; gamma] Hc Hproxy Hput Hheld)
    as (s1 & Hrun & Hcol & _).
  exists s1. split; [exact Hrun | exact Hcol].
Defined.

(** ** Settling: what the operations resolve and reject with *)

Section Settling.
Context {K : Type} `{Key K}.

(** X15: [saveLastModified] of a safe integer (magnitude below 2^53)
    other than 0, given as a number or as its decimal string, then
    [getLastModified] resolves with that integer: [parseInt] reads back
    what [toString] printed. *)
Theorem saveLastModified_round_trip (z : Z) (s : adapter K) :
  working s ->
  safe_integer z ->
  z <> 0 ->
  (IDB.then_ (IDB.saveLastModified (JS.Num (JS.Int z)))
     (fun _ => IDB.getLastModified) s).1 = JS.Resolved (Some (JS.Int z)) /\
  (IDB.then_ (IDB.saveLastModified (JS.Str (JS.decimal z)))
     (fun _ => IDB.getLastModified) s).1 = JS.Resolved (Some (JS.Int z)).
Proof.
  intros Hw Hsafe Hz.
  assert (IDB.or_null (JS.Int z) = Some (JS.Int z)) as Hor.
  { unfold IDB.or_null. simpl. by destruct (Z.eqb_spec z 0). }
  assert (forall v, JS.parseInt v = JS.Int z ->
    (IDB.then_ (IDB.saveLastModified v) (fun _ => IDB.getLastModified) s).1
    = JS.Resolved (Some (JS.Int z))) as Hthen.
  { intros v Hv. unfold IDB.then_ at 1.
    destruct (saveLastModified_working v s Hw) as (s1 & -> & Hw1 & Hm & _).
    destruct (getLastModified_working s1 Hw1) as (s2 & -> & _). simpl.
    unfold stored_lastModified. rewrite Hm, lookup_insert_eq, Hv, Hor.
    by rewrite Hor. }
  split; apply Hthen; [by apply parseInt_printed|].
  unfold JS.parseInt, JS.parse_int_string. cbn [JS.to_string].
  by rewrite read_integer_decimal, to_double_safe.
Qed.

Lemma open_settles (s : adapter K) :
  (exists s0, IDB.open s = (JS.Resolved tt, s0) /\ faults s0 = faults s) \/
  (exists e, IDB.open s = (JS.Rejected (JS.ThrownError e), s)).
Proof.
  unfold IDB.open. destruct (_db s); [by left; eexists|].
  destruct (open_error s) as [e|]; [right | left]; by eexists.
Qed.

Lemma next_fault_faults (s : adapter K) :
  (forall f, f ∈ faults (IDB.next_fault s).2 -> f ∈ faults s) /\
  (forall f, (IDB.next_fault s).1 = Some f -> Some f ∈ faults s).
Proof.
  destruct s as [db c m oe [|f0 fs]]; simpl; [done|]. split.
  - intros f Hf. by right.
  - intros f ->. by left.
Qed.

(** A promise settled by the events of a transaction that opens first
    resolves, rejects with an Error, or is left pending by an abort with
    no error event. *)
Lemma transaction_settles {B : Type} (on_error : JS.error -> JS.thrown)
    (body : adapter K -> B * adapter K) (s : adapter K) :
  (forall s0, faults (body s0).2 = faults s0) ->
  (forall e, exists e', on_error e = JS.ThrownError e') ->
  let r := IDB.then_ IDB.open (fun _ => IDB.transaction on_error body) s in
  ((exists b, r.1 = JS.Resolved b) \/
   (exists e, r.1 = JS.Rejected (JS.ThrownError e)) \/
   (r.1 = JS.Pending /\ aborted s)) /\
  (forall f, f ∈ faults r.2 -> f ∈ faults s).
Proof.
  intros Hbody Herr r. subst r. unfold IDB.then_, IDB.transaction.
  destruct (open_settles s) as [(s0 & -> & Hf0)|(e & ->)];
    [|split; [right; left; by eexists | done]].
  destruct (next_fault_faults s0) as [Hrest Hhead]. rewrite Hf0 in Hrest, Hhead.
  destruct (IDB.next_fault s0) as [[[e|]|] s1]; simpl in *.
  - split; [|done]. right; left. destruct (Herr e) as [e' ->]. by eexists.
  - split; [|done]. right; right. split; [done|]. by apply Hhead.
  - specialize (Hbody s1). destruct (body s1) as [b s2]. simpl in *.
    split; [left; by eexists|]. by rewrite Hbody.
Qed.

Lemma named_after_handleError {B : Type} (method : string) (e : JS.error)
    (s : adapter K) :
  exists t, IDB._handleError (A := B) method (JS.ThrownError e) s = (JS.Rejected t, s) /\
            named_after method t.
Proof. eexists. split; [done|]. by exists (JS.message e). Qed.

(** [execute] of the callback of [loadDump] resolves, rejects with an
    Error, or is left pending by an abort with no error event. *)
Lemma execute_updates_settles (records : list (record K)) (s : adapter K) :
  let r := IDB.execute (foldr Update (Return (Value JS.Undefined)) records) [] s in
  ((exists v, r.1 = JS.Resolved v) \/
   (exists e, r.1 = JS.Rejected (JS.ThrownError e)) \/
   (r.1 = JS.Pending /\ aborted s)) /\
  (forall f, f ∈ faults r.2 -> f ∈ faults s).
Proof.
  intros r. subst r. unfold IDB.execute, IDB.then_.
  destruct (open_settles s) as [(s0 & -> & Hf0)|(e & ->)];
    [|split; [right; left; by eexists | done]].
  destruct (next_fault_faults s0) as [Hrest Hhead]. rewrite Hf0 in Hrest, Hhead.
  destruct (IDB.next_fault s0) as [fault s1]. simpl in Hrest, Hhead.
  unfold IDB.query_index. rewrite in_query_no_values.
  assert (forall p, exists queued,
    IDB.transactionProxy p (foldr Update (Return (Value JS.Undefined)) records)
    = (queued, Returned (Value JS.Undefined))) as Hproxy.
  { intros p. induction records as [|r records [queued IH]]; simpl.
    - by eexists.
    - rewrite IH. by eexists. }
  destruct (Hproxy (IDB.by_id [])) as (queued & ->).
  destruct (run_requests queued (collection s1)) as [c|];
    [destruct fault as [[e|]|]|]; simpl.
  - split; [right; left; by eexists | done].
  - split; [right; right; split; [done | by apply Hhead] | done].
  - split; [left; by eexists | by destruct s1].
  - split; [right; left; by eexists | done].
Qed.

(** X18: [get] and [clear] resolve, or reject with an Error that
    [_handleError] named after them, and [loadDump] resolves with the
    very records it was given or rejects with an Error named
    ["loadDump() ..."], whichever of its steps fails.  The one other
    outcome is a promise left pending: the operations set no handler for
    the abort event.  For [get] and [clear] that is when the engine
    aborts the transaction with no error event, for [loadDump] when it
    fails one of its transactions. *)
Theorem rejections_named (s : adapter K) (key : K) (records : list (record K)) :
  ((exists r, (IDB.get key s).1 = JS.Resolved r) \/
   (exists t, (IDB.get key s).1 = JS.Rejected t /\ named_after "get" t) \/
   ((IDB.get key s).1 = JS.Pending /\ aborted s)) /\
  ((IDB.clear s).1 = JS.Resolved tt \/
   (exists t, (IDB.clear s).1 = JS.Rejected t /\ named_after "clear" t) \/
   ((IDB.clear s).1 = JS.Pending /\ aborted s)) /\
  ((IDB.loadDump records s).1 = JS.Resolved records \/
   (exists t, (IDB.loadDump records s).1 = JS.Rejected t /\
              named_after "loadDump" t) \/
   ((IDB.loadDump records s).1 = JS.Pending /\ failing s)).
Proof.
  assert (forall e, exists e', IDB.wrapped e = JS.ThrownError e') as Hwrapped
    by (intros e; by eexists).
  assert (forall e, exists e', IDB.raw e = JS.ThrownError e') as Hraw
    by (intros e; by eexists).
  split; [|split].
  - unfold IDB.get, IDB.catch_.
    destruct (transaction_settles IDB.wrapped
      (fun s => (store_get key (collection s), s)) s (fun _ => eq_refl) Hwrapped)
      as [[(b & Hr)|[(e & Hr)|[Hr Ha]]] _];
      destruct (IDB.then_ _ _ s) as [out s1]; simpl in Hr; subst out.
    + left. by eexists.
    + right; left. eexists. split; [done|]. by eexists.
    + by right; right.
  - unfold IDB.clear, IDB.catch_.
    destruct (transaction_settles IDB.wrapped
      (fun s => (tt, IDB.set_collection [] s)) s (fun _ => eq_refl) Hwrapped)
      as [[([] & Hr)|[(e & Hr)|[Hr Ha]]] _];
      destruct (IDB.then_ _ _ s) as [out s1]; simpl in Hr; subst out.
    + by left.
    + right; left. eexists. split; [done|]. by eexists.
    + by right; right.
  - remember ((IDB.loadDump records s).1) as out eqn:Hout.
    unfold IDB.loadDump, IDB.catch_ in Hout. unfold IDB.then_ at 1 2 3 in Hout.
    destruct (execute_updates_settles records s)
      as [[(u & Hex)|[(e & Hex)|[Hex Ha]]] Hf1];
      destruct (IDB.execute _ [] s) as [out1 s1]; simpl in Hex, Hf1; subst out1.
    2:{ right; left. eexists; split; [exact Hout | by eexists]. }
    2:{ right; right. subst out. split; [done | by eexists]. }
    unfold IDB.getLastModified at 1 in Hout.
    match type of Hout with context [IDB.then_ IDB.open (fun _ => IDB.transaction ?a ?b) ?c] =>
      destruct (transaction_settles a b c (fun _ => eq_refl) Hraw)
        as [[(p & Hg)|[(e & Hg)|[Hg Ha]]] Hf2];
      destruct (IDB.then_ IDB.open (fun _ => IDB.transaction a b) c) as [out2 s2]
    end; simpl in Hg, Hf2; subst out2.
    2:{ right; left. eexists; split; [exact Hout | by eexists]. }
    2:{ right; right. subst out. split; [done|]. eexists. by apply Hf1. }
    destruct (JS.number_gt _ _); [|by left].
    unfold IDB.saveLastModified, IDB.then_ at 1 in Hout.
    match type of Hout with context [IDB.then_ IDB.open (fun _ => IDB.transaction ?a ?b) ?c] =>
      destruct (transaction_settles a b c (fun s0 => ltac:(by destruct s0)) Hraw)
        as [[(q & Hs)|[(e & Hs)|[Hs Ha]]] _];
      destruct (IDB.then_ IDB.open (fun _ => IDB.transaction a b) c) as [out3 s3]
    end; simpl in Hs; subst out3.
    + by left.
    + right; left. eexists; split; [exact Hout | by eexists].
    + right; right. subst out. split; [done|]. eexists. by apply Hf1, Hf2.
Qed.

End Settling.

Section NoConnection.
Context {K : Type} `{Key K}.

(** X19: when the database cannot be opened, every operation rejects
    and leaves the adapter and both stores as they were.  [get], [clear],
    [list] and [loadDump] reject with an Error whose message is their
    name, ["() "] and the message of the engine's error;
    [execute], [saveLastModified] and [getLastModified] reject with the
    engine's error itself. *)
Theorem nothing_without_connection (s : adapter K) (e : JS.error) (key : K)
    reduceRecords (filters : list (criterion K)) order (v : JS.value)
    (callback : batch K) (preload : list K) (records : list (record K)) :
  _db s = false ->
  open_error s = Some e ->
  IDB.get key s
    = (JS.Rejected (JS.ThrownError (JS.Error "Error" ("get() " +:+ JS.message e))), s) /\
  IDB.clear s
    = (JS.Rejected (JS.ThrownError (JS.Error "Error" ("clear() " +:+ JS.message e))), s) /\
  IDB.list_ reduceRecords filters order s
    = (JS.Rejected (JS.ThrownError (JS.Error "Error" ("list() " +:+ JS.message e))), s) /\
  IDB.loadDump records s
    = (JS.Rejected (JS.ThrownError
         (JS.Error "Error" ("loadDump() " +:+ JS.message e))), s) /\
  IDB.execute callback preload s = (JS.Rejected (JS.ThrownError e), s) /\
  IDB.saveLastModified v s = (JS.Rejected (JS.ThrownError e), s) /\
  IDB.getLastModified s = (JS.Rejected (JS.ThrownError e), s).
Proof.
  intros Hdb Herr.
  assert (IDB.open s = (JS.Rejected (JS.ThrownError e), s)) as Hopen.
  { unfold IDB.open. by rewrite Hdb, Herr. }
  assert (IDB.execute callback preload s = (JS.Rejected (JS.ThrownError e), s)) as Hex.
  { unfold IDB.execute, IDB.then_. by rewrite Hopen. }
  assert (forall cb, IDB.execute cb [] s = (JS.Rejected (JS.ThrownError e), s)) as Hex'.
  { intros cb. unfold IDB.execute, IDB.then_. by rewrite Hopen. }
  repeat split; try done.
  - unfold IDB.get, IDB.catch_, IDB.then_. by rewrite Hopen.
  - unfold IDB.clear, IDB.catch_, IDB.then_. by rewrite Hopen.
  - unfold IDB.list_, IDB.catch_, IDB.then_. by rewrite Hopen.
  - unfold IDB.loadDump, IDB.catch_. unfold IDB.then_ at 1 2 3. by rewrite Hex'.
  - unfold IDB.saveLastModified, IDB.then_. by rewrite Hopen.
  - unfold IDB.getLastModified, IDB.then_. by rewrite Hopen.
Qed.

End NoConnection.

Section LoadDumpContents.
Context {K : Type} `{KeyLaws K}.

Lemma updates_queued (preloaded : IDB.preloaded_object) (records : list (record K)) :
  IDB.transactionProxy preloaded (foldr Update (Return (Value JS.Undefined)) records)
  = (Put <$> records, Returned (Value JS.Undefined)).
Proof.
  induction records as [|r records IH]; simpl; [done | by rewrite IH].
Qed.

Lemma run_puts (records : list (record K)) (store : list (record K)) :
  run_requests (Put <$> records) store = Some (put_all records store).
Proof.
  revert store. induction records as [|r records IH]; intros store; [done|].
  apply (IH (store_put r store)).
Qed.

Lemma put_all_other (records : list (record K)) (store : list (record K)) (key : K) :
  Forall (fun r => id r <> key) records ->
  store_get key (put_all records store) = store_get key store.
Proof.
  revert store. induction records as [|r records IH]; intros store; [done|].
  intros [Hr Hall]%Forall_cons.
  change (put_all (r :: records) store) with (put_all records (store_put r store)).
  rewrite IH by done.
  rewrite store_get_put. apply same_key_neq in Hr. by rewrite Hr.
Qed.

Lemma put_all_stored (records : list (record K)) (store : list (record K))
    (r : record K) :
  NoDup (id <$> records) -> r ∈ records ->
  store_get (id r) (put_all records store) = Some r.
Proof.
  revert store. induction records as [|r0 records IH]; intros store Hnd Hin.
  { by apply elem_of_nil in Hin. }
  rewrite fmap_cons in Hnd. apply NoDup_cons in Hnd as [Hfresh Hnd].
  change (put_all (r0 :: records) store) with (put_all records (store_put r0 store)).
  apply elem_of_cons in Hin as [->|Hin].
  - rewrite put_all_other.
    + rewrite store_get_put.
      by rewrite (proj2 (same_key_eq (id r0) (id r0)) eq_refl).
    + apply Forall_forall. intros r' Hr' Heq. apply Hfresh.
      rewrite <- Heq. by apply list_elem_of_fmap_2.
  - by apply IH.
Qed.

(** [loadDump] when nothing fails. *)
Lemma loadDump_working (records : list (record K)) (s : adapter K) :
  working s ->
  exists s1,
    IDB.loadDump records s = (JS.Resolved records, s1) /\
    collection s1 = put_all records (collection s) /\
    metadata s1
    = (if JS.number_gt (dump_maximum records)
            (JS.null_or_number_to_number (stored_lastModified (metadata s)))
       then <["lastModified"%string :=
                IDB.or_null (JS.parseInt (JS.Num (dump_maximum records)))]> (metadata s)
       else metadata s) /\
    working s1.
Proof.
  intros Hw. unfold IDB.loadDump, IDB.catch_. unfold IDB.then_ at 1 2 3.
  destruct (execute_working (foldr Update (Return (Value JS.Undefined)) records) []
              s (Put <$> records) JS.Undefined (put_all records (collection s)) Hw
              (updates_queued _ records) (run_puts records (collection s)))
    as (s1 & -> & Hw1 & Hc1 & Hm1).
  destruct (getLastModified_working s1 Hw1) as (s2 & -> & Hw2 & Hm2 & Hc2).
  rewrite Hm1. fold (dump_maximum records).
  destruct (JS.number_gt (dump_maximum records) _).
  - unfold IDB.then_.
    destruct (saveLastModified_working (JS.Num (dump_maximum records)) s2 Hw2)
      as (s3 & -> & Hw3 & Hm3 & Hc3).
    exists s3. split; [done|]. split; [congruence|]. split; [congruence | done].
  - exists s2. split; [done|]. split; [congruence|]. split; [congruence | done].
Qed.

(** X16: when nothing fails, [loadDump] resolves with the records it was
    given and the collection holds them: afterwards [get] resolves with
    each record of the dump for its id (the ids of the dump being
    distinct), and with what it resolved with before for an id that is
    not in the dump. *)
Theorem loadDump_stores_the_dump (records : list (record K)) (s : adapter K) :
  working s ->
  (IDB.loadDump records s).1 = JS.Resolved records /\
  (forall key, Forall (fun r => id r <> key) records ->
     (IDB.then_ (IDB.loadDump records) (fun _ => IDB.get key) s).1
     = (IDB.get key s).1) /\
  (NoDup (id <$> records) ->
   forall r, r ∈ records ->
     (IDB.then_ (IDB.loadDump records) (fun _ => IDB.get (id r)) s).1
     = JS.Resolved (Some r)).
Proof.
  intros Hw.
  destruct (loadDump_working records s Hw) as (s1 & Hrun & Hc & _ & Hw1).
  split; [by rewrite Hrun|]. split.
  - intros key Hother. unfold IDB.then_ at 1. rewrite Hrun.
    rewrite !get_working by done. by rewrite Hc, put_all_other.
  - intros Hnd r Hin. unfold IDB.then_ at 1. rewrite Hrun.
    rewrite get_working by done. by rewrite Hc, put_all_stored.
Qed.

(** X17: when nothing fails, the [last_modified] values of the dump are
    safe integers and the greatest of them is greater than the stored
    value (null counting for 0), [loadDump] makes it the stored value:
    [getLastModified] then resolves with that integer, or with null if it
    is 0.  Otherwise [getLastModified] resolves with what it resolved with
    before. *)
Theorem loadDump_raises_lastModified (records : list (record K)) (s : adapter K) :
  working s ->
  safe_dump records ->
  let before := JS.null_or_number_to_number (stored_lastModified (metadata s)) in
  (JS.number_gt (dump_maximum records) before = true ->
   exists z, dump_maximum records = JS.Int z /\
     (IDB.then_ (IDB.loadDump records) (fun _ => IDB.getLastModified) s).1
     = JS.Resolved (integer_or_null (JS.Int z))) /\
  (JS.number_gt (dump_maximum records) before = false ->
   (IDB.then_ (IDB.loadDump records) (fun _ => IDB.getLastModified) s).1
   = (IDB.getLastModified s).1).
Proof.
  intros Hw Hsafe before.
  destruct (loadDump_working records s Hw) as (s1 & Hrun & _ & Hm & Hw1).
  fold before in Hm.
  destruct (getLastModified_working s1 Hw1) as (s2 & Hget & _).
  assert ((IDB.then_ (IDB.loadDump records) (fun _ => IDB.getLastModified) s).1
          = JS.Resolved (stored_lastModified (metadata s1))) as ->.
  { unfold IDB.then_. by rewrite Hrun, Hget. }
  split; intros Hgt; rewrite Hgt in Hm.
  - pose proof (dump_maximum_shape records) as Hshape.
    destruct (dump_maximum records) as [z| | |] eqn:Hmax; try done.
    + exists z. split; [done|]. rewrite Hm. unfold stored_lastModified.
      rewrite lookup_insert_eq, parseInt_printed by (by eapply dump_maximum_safe).
      unfold IDB.or_null. simpl. destruct (Z.eqb_spec z 0); simpl; [done|].
      by destruct (Z.eqb_spec z 0).
    + by destruct before.
  - destruct (getLastModified_working s Hw) as (s3 & -> & _). by rewrite Hm.
Qed.

End LoadDumpContents.

Section ListSettles.
Context {K : Type} `{KeyLaws K}.

Lemma indexed_criterion (filters : list (criterion K)) (field : string) :
  IDB.findIndexedField filters = Some field ->
  In field IDB.INDEXED_FIELDS /\
  exists c, IDB.filter_on field filters = Some c /\ field_of c = field /\ In c filters.
Proof.
  unfold IDB.findIndexedField. intros Hhead.
  apply head_filter_first in Hhead as (before & after & Hfields & Hin & _).
  assert (In field IDB.INDEXED_FIELDS) as Hindexed.
  { destruct (In_dec string_dec field IDB.INDEXED_FIELDS) as [?|Hn]; [done|].
    apply indexOf_absent in Hn. rewrite Hn in Hin. done. }
  split; [done|].
  assert (In field (field_of <$> filters)) as Hnamed.
  { rewrite Hfields. apply in_or_app. right. by left. }
  apply list_elem_of_In, list_elem_of_fmap in Hnamed as (c0 & Hc0 & Hin0).
  unfold IDB.filter_on.
  destruct (List.find (fun c => String.eqb (field_of c) field) filters) as [c|] eqn:Hfind.
  - apply find_some in Hfind as [Hc Heq%String.eqb_eq]. eauto.
  - apply list_elem_of_In in Hin0.
    pose proof (find_none _ _ Hfind c0 Hin0) as Hno. simpl in Hno.
    rewrite <- Hc0, String.eqb_refl in Hno. done.
Qed.

(** The request of a [list] with well formed filters runs to its end. *)
Lemma createListRequest_runs (filters : list (criterion K)) (store : list (record K)) :
  well_formed filters ->
  exists results,
    IDB.createListRequest store (IDB.findIndexedField filters)
      (IDB.filter_on (IDB.property_name (IDB.findIndexedField filters)) filters)
    = Some results.
Proof.
  intros Hwf.
  destruct (IDB.findIndexedField filters) as [field|] eqn:Hfield.
  - apply indexed_criterion in Hfield as (Hindexed & c & Hc & Hname & Hin).
    change (IDB.property_name (Some field)) with field. rewrite Hc.
    unfold IDB.createListRequest.
    destruct c as [[v|values]|[v|values]|[v|values]|name v].
    + rewrite (query_index_one (fun r => Some (id r))). by eexists.
    + unfold IDB.query_index. apply in_query_total.
    + rewrite query_index_one. by eexists.
    + unfold IDB.query_index. apply in_query_total.
    + rewrite query_index_one. by eexists.
    + unfold IDB.query_index. apply in_query_total.
    + unfold well_formed in Hwf. rewrite Forall_forall in Hwf.
      apply list_elem_of_In in Hin. specialize (Hwf _ Hin). simpl in *.
      by subst name.
  - rewrite full_scan. by eexists.
Qed.

(** X20: with keys of one kind on each index and no filter that borrows
    the name of an indexed field, the cursor handlers of [list] never
    leave the request unfinished, so that [list] resolves, or rejects
    with an Error named ["list() ..."].  The one other outcome is a
    promise left pending, when the engine aborts the transaction with no
    error event: [list] sets no handler for the abort event. *)
Theorem list_settles reduceRecords (filters : list (criterion K)) order
    (s : adapter K) :
  well_formed filters ->
  (exists records, (IDB.list_ reduceRecords filters order s).1 = JS.Resolved records) \/
  (exists t, (IDB.list_ reduceRecords filters order s).1 = JS.Rejected t /\
             named_after "list" t) \/
  ((IDB.list_ reduceRecords filters order s).1 = JS.Pending /\ aborted s).
Proof.
  intros Hwf. unfold IDB.list_, IDB.catch_, IDB.then_, IDB.resolve.
  destruct (open_settles s) as [(s0 & -> & Hf0)|(e & ->)].
  - destruct (next_fault_faults s0) as [_ Hhead]. rewrite Hf0 in Hhead.
    destruct (IDB.next_fault s0) as [fault s1]. simpl in Hhead.
    destruct (createListRequest_runs filters (collection s1) Hwf) as (results & ->).
    destruct fault as [[e|]|].
    + right; left. eexists. split; [done|]. by eexists.
    + right; right. split; [done|]. by apply Hhead.
    + left. by eexists.
  - right; left. eexists. split; [done|]. by eexists.
Qed.

End ListSettles.

(** ** The further properties on stores of two records *)

Lemma identity_reduces {K : Type} :
  reduces (K := K) (fun _ _ records => records).
Proof. intros order records. reflexivity. Defined.

Lemma two_records_one_per_id : NoDup (id <$> collection two_records).
Proof.
  apply NoDup_cons. split.
  - intros [[=]|[]%elem_of_nil]%elem_of_cons.
  - apply NoDup_cons. split; [apply not_elem_of_nil | apply NoDup_nil_2].
Defined.

Lemma list_id_in_sorted_keys_witness :
  exists rs,
    (IDB.list_ (fun _ _ records => records) [OnId (Many ["b"; "z"; "a"]%string)] None
       two_records).1 = JS.Resolved rs /\
    forall r, r ∈ rs <-> r ∈ [alpha; beta] /\ id r ∈ ["b"; "z"; "a"]%string.
Proof.
  destruct (list_id_in_sorted_keys (fun _ _ records => records)
              ["b"; "z"; "a"]%string None two_records identity_reduces
              two_records_working) as (rs & s1 & Hrun & _ & Hin & _).
  exists rs. split; [by rewrite Hrun | exact Hin].
Defined.

Lemma in_query_delivers_only_asked_witness :
  let store := [Record_ 9 None (Some 100) []; Record_ 10 None (Some 20) []] in
  exists records,
    IDB.query_index last_modified (Many [100; 20]) store = Some records /\
    forall r, r ∈ records ->
      r ∈ store /\ exists k, last_modified r = Some k /\ k ∈ [100; 20].
Proof.
  intros store.
  exact (in_query_delivers_only_asked (K := Z) last_modified [100; 20] store).
Defined.

Lemma list_in_nothing_witness :
  working two_records /\
  (IDB.list_ (fun _ _ records => records) [OnId (Many [])] None two_records).1
  = JS.Resolved [].
Proof.
  split; [exact two_records_working|].
  exact (proj1 (list_in_nothing (fun _ _ records => records) None two_records
                  two_records_working)).
Defined.

Lemma in_query_exact_when_sorted_witness :
  let store := [Record_ 1 None (Some 3) []; Record_ 2 None (Some 7) [];
                Record_ 3 None (Some 5) []] in
  StronglySorted (not_after key_lt) (array_sort [5; 3; 9]) /\
  exists records,
    IDB.query_index last_modified (Many [5; 3; 9]) store = Some records /\
    records ≡ₚ List.filter (has_key_in last_modified [5; 3; 9]) store.
Proof.
  intros store.
  assert (StronglySorted (not_after key_lt) (array_sort [5; 3; 9])) as Hsorted.
  { vm_compute. repeat constructor. }
  split; [exact Hsorted|].
  destruct (in_query_exact_when_sorted (K := Z) last_modified [5; 3; 9] store Hsorted)
    as (records & Hq & Hp & _).
  exists records. split; [exact Hq | exact Hp].
Defined.

Lemma list_status_in_witness :
  working two_records /\
  exists records,
    (IDB.list_ (fun _ _ records => records)
       [OnStatus (Many ["synced"; "deleted"]%string)] None two_records).1
      = JS.Resolved records /\
    records ≡ₚ List.filter (has_key_in _status ["synced"; "deleted"]%string)
                 (collection two_records).
Proof.
  split; [exact two_records_working|].
  destruct (list_status_in (fun _ _ records => records) ["synced"; "deleted"]%string
              None two_records two_records_working) as (records & Hrun & Hp & _).
  exists records. split; [exact Hrun | exact Hp].
Defined.

Lemma scalar_query_filters_full_scan_witness :
  exists scan,
    IDB.createListRequest (collection two_records) None None = Some scan /\
    IDB.createListRequest (collection two_records) (Some "_status"%string)
      (Some (OnStatus (One "created"%string)))
    = Some (List.filter (has_key _status "created"%string) scan).
Proof.
  destruct (scalar_query_filters_full_scan (collection two_records) "_status"%string)
    as (scan & Hscan & _ & Hstatus & _).
  exists scan. split; [exact Hscan | exact (Hstatus "created"%string)].
Defined.

Lemma list_full_scan_witness :
  working two_records /\
  IDB.findIndexedField (K := string) [OnOther "title"%string (JS.Str "foo")] = None /\
  (IDB.list_ (fun _ _ records => records) [OnOther "title"%string (JS.Str "foo")] None
     two_records).1
  = JS.Resolved (primary_order (collection two_records)).
Proof.
  split; [exact two_records_working|]. split; [reflexivity|].
  exact (proj1 (list_full_scan (fun _ _ records => records)
                  [OnOther "title"%string (JS.Str "foo")] None two_records
                  two_records_working eq_refl)).
Defined.

Lemma create_then_get_witness :
  let gamma := Record_ "c"%string None None [] in
  working two_records /\
  store_get (id gamma) (collection two_records) = None /\
  (IDB.then_ (IDB.execute (Create gamma (Return (Value JS.Null))) [])
     (fun _ => IDB.get "c"%string) two_records).1 = JS.Resolved (Some gamma).
Proof.
  intros gamma.
  split; [exact two_records_working|]. split; [reflexivity|].
  exact (proj1 (proj2 (create_then_get gamma JS.Null [] two_records
                         two_records_working eq_refl))).
Defined.

Lemma update_then_get_witness :
  let newer := Record_ "a"%string (Some "updated"%string) (Some 9) [] in
  working two_records /\
  (IDB.then_ (IDB.execute (Update newer (Return (Value JS.Null))) [])
     (fun _ => IDB.get "a"%string) two_records).1 = JS.Resolved (Some newer).
Proof.
  intros newer. split; [exact two_records_working|].
  exact (proj1 (proj2 (update_then_get newer JS.Null [] two_records
                         two_records_working))).
Defined.

Lemma delete_then_get_witness :
  working two_records /\
  (IDB.then_ (IDB.execute (Remove "a"%string (Return (Value JS.Null))) [])
     (fun _ => IDB.get "a"%string) two_records).1 = JS.Resolved None.
Proof.
  split; [exact two_records_working|].
  exact (proj1 (proj2 (delete_then_get "a"%string JS.Null [] two_records
                         two_records_working))).
Defined.

Lemma one_record_per_id_witness :
  NoDup (id <$> collection two_records) /\
  NoDup (id <$> collection (IDB.loadDump [alpha; alpha; beta] two_records).2).
Proof.
  split; [exact two_records_one_per_id|].
  exact (proj1 (proj2 (one_record_per_id two_records (Return APromise) []
                         [alpha; alpha; beta] two_records_one_per_id))).
Defined.

Lemma saveLastModified_round_trip_witness :
  working two_records /\ safe_integer 1700000000000 /\ 1700000000000 <> 0 /\
  (IDB.then_ (IDB.saveLastModified (JS.Str "1700000000000"))
     (fun _ => IDB.getLastModified) two_records).1
  = JS.Resolved (Some (JS.Int 1700000000000)).
Proof.
  assert (safe_integer 1700000000000) as Hsafe by (unfold safe_integer; lia).
  assert (1700000000000 <> 0) as Hz by lia.
  split; [exact two_records_working|]. split; [exact Hsafe|]. split; [exact Hz|].
  exact (proj2 (saveLastModified_round_trip 1700000000000 two_records
                  two_records_working Hsafe Hz)).
Defined.

Lemma loadDump_stores_the_dump_witness :
  let gamma := Record_ "c"%string (Some "synced"%string) (Some 9) [] in
  let newer := Record_ "a"%string (Some "synced"%string) (Some 7) [] in
  working two_records /\
  NoDup (id <$> [gamma; newer]) /\
  (IDB.then_ (IDB.loadDump [gamma; newer]) (fun _ => IDB.get "a"%string)
     two_records).1 = JS.Resolved (Some newer).
Proof.
  intros gamma newer.
  assert (NoDup (id <$> [gamma; newer])) as Hnd.
  { apply NoDup_cons. split.
    - intros [[=]|[]%elem_of_nil]%elem_of_cons.
    - apply NoDup_cons. split; [apply not_elem_of_nil | apply NoDup_nil_2]. }
  split; [exact two_records_working|]. split; [exact Hnd|].
  apply (proj2 (proj2 (loadDump_stores_the_dump [gamma; newer] two_records
                         two_records_working)) Hnd newer).
  right. left.
Defined.

Lemma loadDump_raises_lastModified_witness :
  let gamma := Record_ "c"%string (Some "synced"%string) (Some 9) [] in
  working two_records /\
  safe_dump [gamma] /\
  JS.number_gt (dump_maximum [gamma])
    (JS.null_or_number_to_number (stored_lastModified (metadata two_records))) = true /\
  exists z, dump_maximum [gamma] = JS.Int z /\
    (IDB.then_ (IDB.loadDump [gamma]) (fun _ => IDB.getLastModified) two_records).1
    = JS.Resolved (integer_or_null (JS.Int z)).
Proof.
  intros gamma.
  assert (safe_dump [gamma]) as Hsafe.
  { constructor; [|constructor]. intros x [= <-]. unfold safe_integer. lia. }
  assert (JS.number_gt (dump_maximum [gamma])
    (JS.null_or_number_to_number (stored_lastModified (metadata two_records))) = true)
    as Hgt by (vm_compute; reflexivity).
  split; [exact two_records_working|]. split; [exact Hsafe|]. split; [exact Hgt|].
  exact (proj1 (loadDump_raises_lastModified [gamma] two_records
                  two_records_working Hsafe) Hgt).
Defined.

Lemma nothing_without_connection_witness :
  let blocked := JS.Error "InvalidStateError" "A mutation operation was attempted." in
  let s := Adapter false [alpha] ∅ (Some blocked) [] in
  _db s = false /\ open_error s = Some blocked /\
  IDB.clear s
    = (JS.Rejected (JS.ThrownError
         (JS.Error "Error" "clear() A mutation operation was attempted.")), s) /\
  IDB.getLastModified s = (JS.Rejected (JS.ThrownError blocked), s).
Proof.
  intros blocked s.
  split; [reflexivity|]. split; [reflexivity|].
  destruct (nothing_without_connection s blocked "a"%string
              (fun _ _ records => records) [] None JS.Null (Return APromise) [] []
              eq_refl eq_refl) as (_ & Hclear & _ & _ & _ & _ & Hget).
  split; [exact Hclear | exact Hget].
Defined.

Lemma list_settles_witness :
  let filters : list (criterion string) :=
    [OnOther "title" (JS.Str "foo"); OnLastModified (Many [5; 100])]%string in
  well_formed filters /\
  ((exists records,
      (IDB.list_ (fun _ _ records => records) filters None two_records).1
      = JS.Resolved records) \/
   (exists t,
      (IDB.list_ (fun _ _ records => records) filters None two_records).1
      = JS.Rejected t /\ named_after "list" t) \/
   ((IDB.list_ (fun _ _ records => records) filters None two_records).1
    = JS.Pending /\ aborted two_records)).
Proof.
  intros filters.
  assert (well_formed filters) as Hwf.
  { repeat constructor. simpl. intros [H|[H|[H|[]]]]; discriminate H. }
  split; [exact Hwf|].
  exact (list_settles (fun _ _ records => records) filters None two_records Hwf).
Defined.
